(** * TileList: a doubly linked list of tiles ordered front-to-back

    Shallow embedding of [src/tilelist.cpp].  The C++ object graph is a heap
    of [TileNode]s addressed by locations, the two members [front] and [back]
    of the class are fields of the state record, and every member function
    is a computation in a state-and-fault monad: a computation faults when it
    dereferences a null or a deleted pointer, or when a loop does not end.  *)

From Stdlib Require Import ZArith Lia.
From stdpp Require Import base option list gmap strings.

Local Open Scope Z_scope.

(** ** The C++ type [int] *)

(** [int] is a 32-bit two's complement integer.  An overflow of [+] or [-]
    on it is undefined in C++; it is modelled with the wrap-around of the
    usual targets, and the statements that depend on the arithmetic say
    when the exact result is a value of [int]. *)
Definition INT_MAX : Z := 2 ^ 31 - 1.
Definition INT_MIN : Z := - 2 ^ 31.

Definition in_int (z : Z) : Prop := INT_MIN ≤ z ≤ INT_MAX.

Definition wrap (z : Z) : Z := (z + 2 ^ 31) `mod` 2 ^ 32 - 2 ^ 31.

Definition int_add (a b : Z) : Z := wrap (a + b).
Definition int_sub (a b : Z) : Z := wrap (a - b).

(** ** Tile nodes *)

Abbreviation loc := positive.

Module TileNode.

(** Modelled from the spec: the class [TileNode] of [tilenode.h], which is
    not among the sources.  Its members are the ones [tilelist.cpp] reads
    and writes ([x], [y], [width], [height], [color], [prev], [next]), in
    the order of the constructor call in [addFront]. *)
Record t : Type := mk {
  x : Z;
  y : Z;
  width : Z;
  height : Z;
  color : string;
  prev : option loc;
  next : option loc
}.

(** Modelled from the spec: [TileNode::contains] of [tilenode.h]:
    [contains(px,py)] holds iff [x ≤ px < x+width] and
    [y ≤ py < y+height]. *)
Definition contains (n : t) (px py : Z) : bool :=
  (x n <=? px) && (px <? x n + width n) &&
  (y n <=? py) && (py <? y n + height n).

Definition set_color (c : string) (n : t) : t :=
  mk (x n) (y n) (width n) (height n) c (prev n) (next n).
Definition set_prev (p : option loc) (n : t) : t :=
  mk (x n) (y n) (width n) (height n) (color n) p (next n).
Definition set_next (q : option loc) (n : t) : t :=
  mk (x n) (y n) (width n) (height n) (color n) (prev n) q.

End TileNode.

(** ** The state of a [TileList] and the monad of its member functions *)

Record TileList : Type := mkTileList {
  heap : gmap loc TileNode.t;
  front : option loc;
  back : option loc
}.

Definition M (A : Type) : Type := TileList → option (A * TileList).

#[global] Instance M_ret : MRet M := λ A a s, Some (a, s).
#[global] Instance M_bind : MBind M := λ A B k m s,
  match m s with
  | Some (a, s') => k a s'
  | None => None
  end.

Definition fault {A : Type} : M A := λ _, None.

(** Reading and writing the two members of the class. *)
Definition getFront : M (option loc) := λ s, Some (front s, s).
Definition getBack : M (option loc) := λ s, Some (back s, s).
Definition setFront (p : option loc) : M unit :=
  λ s, Some (tt, mkTileList (heap s) p (back s)).
Definition setBack (p : option loc) : M unit :=
  λ s, Some (tt, mkTileList (heap s) (front s) p).

(** [p->...] on a possibly null pointer. *)
Definition deref (p : option loc) : M loc :=
  match p with
  | Some a => mret a
  | None => fault
  end.

Definition load (p : loc) : M TileNode.t :=
  λ s, match heap s !! p with
       | Some n => Some (n, s)
       | None => None
       end.

Definition store (p : loc) (n : TileNode.t) : M unit :=
  λ s, match heap s !! p with
       | Some _ => Some (tt, mkTileList (<[p:=n]> (heap s)) (front s) (back s))
       | None => None
       end.

(** [p->f = v] for the three members that are assigned. *)
Definition assign_color (p : loc) (c : string) : M unit :=
  n ← load p; store p (TileNode.set_color c n).
Definition assign_prev (p : loc) (v : option loc) : M unit :=
  n ← load p; store p (TileNode.set_prev v n).
Definition assign_next (p : loc) (v : option loc) : M unit :=
  n ← load p; store p (TileNode.set_next v n).

(** [new TileNode(...)] and [delete p]. *)
Definition new (n : TileNode.t) : M loc :=
  λ s, let p := fresh (dom (heap s)) in
       Some (p, mkTileList (<[p:=n]> (heap s)) (front s) (back s)).

Definition delete_node (p : loc) : M unit :=
  λ s, match heap s !! p with
       | Some _ => Some (tt, mkTileList (delete p (heap s)) (front s) (back s))
       | None => None
       end.

(** The number of iterations after which a loop over the nodes of the heap
    has followed a cycle or has run out of nodes to delete. *)
Definition fuel_of : M nat := λ s, Some (S (size (heap s)), s).

(** ** The member functions *)

(** [TileList::TileList()] *)
Definition TileList_new : TileList := mkTileList ∅ None None.

Fixpoint findTile_loop (fuel : nat) (x y : Z) (current : option loc)
  : M (option loc) :=
  match fuel with
  | O => fault
  | S fuel' =>
    match current with
    | None => mret None
    | Some c =>
      n ← load c;
      if TileNode.contains n x y then mret (Some c)
      else findTile_loop fuel' x y (TileNode.next n)
    end
  end.

Definition findTile (x y : Z) : M (option loc) :=
  fuel ← fuel_of;
  current ← getFront;
  findTile_loop fuel x y current.

Definition detachTile (tile : loc) : M unit :=
  f ← getFront;
  (if decide (Some tile ≠ f) then
     n ← load tile;
     p ← deref (TileNode.prev n);
     assign_next p (TileNode.next n)
   else
     n ← load tile;
     setFront (TileNode.next n));;
  b ← getBack;
  (if decide (Some tile ≠ b) then
     n ← load tile;
     q ← deref (TileNode.next n);
     assign_prev q (TileNode.prev n)
   else
     n ← load tile;
     setBack (TileNode.prev n)).

Definition attachFront (newFront : loc) : M unit :=
  assign_prev newFront None;;
  f ← getFront;
  match f with
  | None =>
    setFront (Some newFront);;
    f' ← getFront;
    setBack f'
  | Some fr =>
    assign_next newFront (Some fr);;
    assign_prev fr (Some newFront);;
    setFront (Some newFront)
  end.

Definition addFront (x y width height : Z) (color : string) : M unit :=
  p ← new (TileNode.mk x y width height color None None);
  attachFront p.

Definition attachBack (newBack : loc) : M unit :=
  assign_next newBack None;;
  f ← getFront;
  match f with
  | None =>
    setFront (Some newBack);;
    f' ← getFront;
    setBack f'
  | Some _ =>
    b ← getBack;
    assign_prev newBack b;;
    bk ← deref b;
    assign_next bk (Some newBack);;
    setBack (Some newBack)
  end.

Definition addBack (x y width height : Z) (color : string) : M unit :=
  p ← new (TileNode.mk x y width height color None None);
  attachBack p.

Fixpoint clear_loop (fuel : nat) : M unit :=
  match fuel with
  | O => fault
  | S fuel' =>
    f ← getFront;
    b ← getBack;
    if decide (f ≠ b) then
      current ← deref f;
      n ← load current;
      setFront (TileNode.next n);;
      delete_node current;;
      clear_loop fuel'
    else mret tt
  end.

Definition clear : M unit :=
  fuel ← fuel_of;
  clear_loop fuel;;
  setFront None;;
  setBack None.

Definition highlight (x y : Z) : M bool :=
  tile ← findTile x y;
  match tile with
  | Some t => assign_color t "yellow";; mret true
  | None => mret false
  end.

Definition raise (x y : Z) : M bool :=
  tile ← findTile x y;
  f ← getFront;
  match tile with
  | Some t =>
    if decide (tile ≠ f) then
      detachTile t;;
      attachFront t;;
      mret true
    else mret false
  | None => mret false
  end.

Definition lower (x y : Z) : M bool :=
  tile ← findTile x y;
  b ← getBack;
  match tile with
  | Some t =>
    if decide (tile ≠ b) then
      detachTile t;;
      attachBack t;;
      mret true
    else mret false
  | None => mret false
  end.

Definition remove (x y : Z) : M bool :=
  tile ← findTile x y;
  match tile with
  | Some t =>
    detachTile t;;
    delete_node t;;
    mret true
  | None => mret false
  end.

Fixpoint removeAll_loop (fuel : nat) (x y : Z) (tile : option loc)
    (removed : Z) : M Z :=
  match fuel with
  | O => fault
  | S fuel' =>
    match tile with
    | None => mret removed
    | Some t =>
      detachTile t;;
      delete_node t;;
      tile' ← findTile x y;
      removeAll_loop fuel' x y tile' (int_add removed 1)
    end
  end.

Definition removeAll (x y : Z) : M Z :=
  fuel ← fuel_of;
  tile ← findTile x y;
  removeAll_loop fuel x y tile 0.

Fixpoint merge_loop (fuel : nat) (x y : Z) (tile : option loc)
    (minX maxX minY maxY : Z) : M (Z * Z * Z * Z) :=
  match fuel with
  | O => fault
  | S fuel' =>
    match tile with
    | None => mret (minX, maxX, minY, maxY)
    | Some t =>
      detachTile t;;
      n ← load t;
      let minX := if TileNode.x n <? minX then TileNode.x n else minX in
      let maxX :=
        if int_add (TileNode.x n) (TileNode.width n) >? maxX
        then int_add (TileNode.x n) (TileNode.width n) else maxX in
      let minY := if TileNode.y n <? minY then TileNode.y n else minY in
      let maxY :=
        if int_add (TileNode.y n) (TileNode.height n) >? maxY
        then int_add (TileNode.y n) (TileNode.height n) else maxY in
      delete_node t;;
      tile' ← findTile x y;
      merge_loop fuel' x y tile' minX maxX minY maxY
    end
  end.

Definition merge (x y : Z) : M unit :=
  fuel ← fuel_of;
  tile ← findTile x y;
  match tile with
  | None => mret tt
  | Some t =>
    n ← load t;
    let color := TileNode.color n in
    let minX := TileNode.x n in
    let maxX := int_add minX (TileNode.width n) in
    let minY := TileNode.y n in
    let maxY := int_add minY (TileNode.height n) in
    '(minX, maxX, minY, maxY) ← merge_loop fuel x y tile minX maxX minY maxY;
    addFront minX minY (int_sub maxX minX) (int_sub maxY minY) color
  end.

(** Front-to-back traversal, as a caller does it from [getFront()] along
    [next]: the loop of [findTile] without the test. *)
Fixpoint traverse_loop (fuel : nat) (current : option loc) : M (list loc) :=
  match fuel with
  | O => fault
  | S fuel' =>
    match current with
    | None => mret []
    | Some c =>
      n ← load c;
      rest ← traverse_loop fuel' (TileNode.next n);
      mret (c :: rest)
    end
  end.

Definition traverse : M (list loc) :=
  fuel ← fuel_of;
  current ← getFront;
  traverse_loop fuel current.


(** ** The abstract view: the tiles of a list, front to back *)

Module Tile.

(** The observable part of a node: geometry and colour. *)
Record t : Type := mk {
  x : Z;
  y : Z;
  width : Z;
  height : Z;
  color : string
}.

(** [TileNode.contains], on the observable part. *)
Definition contains (r : t) (px py : Z) : bool :=
  (x r <=? px) && (px <? x r + width r) &&
  (y r <=? py) && (py <? y r + height r).

Definition set_color (c : string) (r : t) : t :=
  mk (x r) (y r) (width r) (height r) c.

#[global] Instance eq_dec : EqDecision t.
Proof. solve_decision. Defined.

End Tile.

Definition tile_of (n : TileNode.t) : Tile.t :=
  Tile.mk (TileNode.x n) (TileNode.y n) (TileNode.width n)
          (TileNode.height n) (TileNode.color n).

(** A node of the list together with the tile it holds. *)
Abbreviation entry := (loc * Tile.t)%type.

Definition first_or (q : option loc) (l : list entry) : option loc :=
  match l with
  | [] => q
  | e :: _ => Some e.1
  end.

Definition last_or (p : option loc) (l : list entry) : option loc :=
  match last l with
  | None => p
  | Some e => Some e.1
  end.

(** [dll h p l q]: in heap [h] the nodes of [l] are linked in this order,
    the first one has [prev = p] and the last one has [next = q]. *)
Fixpoint dll (h : gmap loc TileNode.t) (p : option loc) (l : list entry)
    (q : option loc) : Prop :=
  match l with
  | [] => True
  | e :: l' =>
    match h !! e.1 with
    | Some n =>
      tile_of n = e.2 ∧ TileNode.prev n = p ∧
      TileNode.next n = first_or q l' ∧ dll h (Some e.1) l' q
    | None => False
    end
  end.

(** [repr s l]: the state [s] is the list [l], front first. *)
Definition repr (s : TileList) (l : list entry) : Prop :=
  dll (heap s) None l None ∧
  front s = first_or None l ∧
  back s = last_or None l ∧
  NoDup l.*1.

#[global] Instance dll_dec h p l q : Decision (dll h p l q).
Proof.
  revert p. induction l as [|e l IH]; intros p; simpl; [apply _|].
  destruct (h !! e.1); apply _.
Defined.

#[global] Instance repr_dec s l : Decision (repr s l).
Proof. unfold repr. apply _. Defined.

(** The first entry, front to back, whose tile contains the point. *)
Fixpoint first_hit (x y : Z) (l : list entry) : option entry :=
  match l with
  | [] => None
  | e :: l' => if Tile.contains e.2 x y then Some e else first_hit x y l'
  end.

Definition hits (x y : Z) (e : entry) : Prop := Tile.contains e.2 x y = true.

#[global] Instance hits_dec x y e : Decision (hits x y e).
Proof. unfold hits. apply _. Defined.

(** ** Total correctness assertions *)

(** [post m s Q]: run from [s], the computation [m] does not fault and ends
    with a result and a state that satisfy [Q]. *)
Definition post {A : Type} (m : M A) (s : TileList)
    (Q : A → TileList → Prop) : Prop :=
  ∃ a s', m s = Some (a, s') ∧ Q a s'.

(** No entry of the list is hit by the point. *)
Abbreviation miss x y := (Forall (λ e : entry, ¬ hits x y e)).

(** ** The bounding box accumulated by [merge] *)

(** The four running extremes [(minX, maxX, minY, maxY)]. *)
Abbreviation extremes := (Z * Z * Z * Z)%type.

(** The extremes [merge] starts from: those of the first tile found. *)
Definition start (t : Tile.t) : extremes :=
  (Tile.x t, int_add (Tile.x t) (Tile.width t),
   Tile.y t, int_add (Tile.y t) (Tile.height t)).

(** One pass of the body of the loop of [merge] over a removed tile. *)
Definition grow (acc : extremes) (t : Tile.t) : extremes :=
  let '(minX, maxX, minY, maxY) := acc in
  (if Tile.x t <? minX then Tile.x t else minX,
   if int_add (Tile.x t) (Tile.width t) >? maxX
   then int_add (Tile.x t) (Tile.width t) else maxX,
   if Tile.y t <? minY then Tile.y t else minY,
   if int_add (Tile.y t) (Tile.height t) >? maxY
   then int_add (Tile.y t) (Tile.height t) else maxY).

(** The tile [merge] adds for the final extremes. *)
Definition box (acc : extremes) (c : string) : Tile.t :=
  let '(minX, maxX, minY, maxY) := acc in
  Tile.mk minX minY (int_sub maxX minX) (int_sub maxY minY) c.

(** A tile whose edges are exact integers: the rectangle it covers. *)
Definition right (t : Tile.t) : Z := Tile.x t + Tile.width t.
Definition bottom (t : Tile.t) : Z := Tile.y t + Tile.height t.

(** The full rectangle of [t] lies in the rectangle of [r]. *)
Definition inside (t r : Tile.t) : Prop :=
  Tile.x r ≤ Tile.x t ∧ right t ≤ right r ∧
  Tile.y r ≤ Tile.y t ∧ bottom t ≤ bottom r.

(** [r] is the least rectangle that covers every tile of [ts]. *)
Definition bounding_box (r : Tile.t) (ts : list Tile.t) : Prop :=
  Forall (λ t, inside t r) ts ∧
  ∀ r', Forall (λ t, inside t r') ts → inside r r'.

(** The edges of the tiles of [ts], and the extents between the edges of
    any two of them, are values of type [int]: the additions and
    subtractions of [merge] do not overflow. *)
Definition fits (ts : list Tile.t) : Prop :=
  ∀ t t', t ∈ ts → t' ∈ ts →
    in_int (right t) ∧ in_int (bottom t) ∧
    in_int (right t - Tile.x t') ∧ in_int (bottom t - Tile.y t').

#[global] Instance in_int_dec z : Decision (in_int z).
Proof. unfold in_int. apply _. Defined.

(** [acc] holds the least left and top edges and the greatest right and
    bottom edges of the tiles of [ts], each of them attained. *)
Definition extremes_of (ts : list Tile.t) (acc : extremes) : Prop :=
  let '(minX, maxX, minY, maxY) := acc in
  (∃ t, t ∈ ts ∧ Tile.x t = minX) ∧ (∃ t, t ∈ ts ∧ right t = maxX) ∧
  (∃ t, t ∈ ts ∧ Tile.y t = minY) ∧ (∃ t, t ∈ ts ∧ bottom t = maxY) ∧
  Forall (λ t, minX ≤ Tile.x t ∧ right t ≤ maxX ∧
               minY ≤ Tile.y t ∧ bottom t ≤ maxY) ts.

(** ** Relative order *)

(** The list without the node [m]. *)
Definition others (m : loc) (l : list entry) : list entry :=
  filter (λ e, e.1 ≠ m) l.

(** [a] is immediately in front of [b]. *)
Definition neighbours (a b : entry) (l : list entry) : Prop :=
  ∃ l1 l2, l = l1 ++ a :: b :: l2.

(** [kept m l l']: apart from the node [m], the lists [l] and [l'] are the
    same nodes in the same order; two neighbours in [l] that are not [m]
    are still neighbours in [l'], and the neighbours in [l'] that are not
    [m] are the neighbours in [l] once [m] is taken out.  Without a node
    [m] nothing moves. *)
Definition kept (m : option loc) (l l' : list entry) : Prop :=
  match m with
  | None => l' = l
  | Some m =>
    others m l' = others m l ∧
    ∀ a b, a.1 ≠ m → b.1 ≠ m →
      (neighbours a b l → neighbours a b l') ∧
      (neighbours a b l' ↔ neighbours a b (others m l))
  end.

(** ** Well-formedness of the links, in terms of pointers *)

Definition next_of (s : TileList) (a : loc) : option loc :=
  n ← heap s !! a; TileNode.next n.
Definition prev_of (s : TileList) (a : loc) : option loc :=
  n ← heap s !! a; TileNode.prev n.

(** [path] is what following [next] from [front] visits, and it ends at
    [back]. *)
Definition follows_next (s : TileList) (path : list loc) : Prop :=
  head path = front s ∧ last path = back s ∧
  ∀ i a, path !! i = Some a →
    is_Some (heap s !! a) ∧ next_of s a = path !! S i.

Definition well_formed (s : TileList) : Prop :=
  (front s = None ↔ back s = None) ∧
  ∃ path,
    NoDup path ∧ follows_next s path ∧
    (∀ a b, a ∈ path → b ∈ path →
       (next_of s a = Some b ↔ prev_of s b = Some a)) ∧
    (∀ a, front s = Some a → prev_of s a = None) ∧
    (∀ a, back s = Some a → next_of s a = None).

(** ** Sequences of calls of the public member functions *)

Inductive call : Type :=
  | AddFront (x y width height : Z) (color : string)
  | AddBack (x y width height : Z) (color : string)
  | Highlight (x y : Z)
  | Raise (x y : Z)
  | Lower (x y : Z)
  | Remove (x y : Z)
  | RemoveAll (x y : Z)
  | Merge (x y : Z)
  | Clear.

Definition run (c : call) : M unit :=
  match c with
  | AddFront x y w h c => addFront x y w h c
  | AddBack x y w h c => addBack x y w h c
  | Highlight x y => highlight x y;; mret tt
  | Raise x y => raise x y;; mret tt
  | Lower x y => lower x y;; mret tt
  | Remove x y => remove x y;; mret tt
  | RemoveAll x y => removeAll x y;; mret tt
  | Merge x y => merge x y
  | Clear => clear
  end.

Fixpoint run_all (cs : list call) : M unit :=
  match cs with
  | [] => mret tt
  | c :: cs' => run c;; run_all cs'
  end.

(** ** Sample lists *)

Definition red : Tile.t := Tile.mk 0 0 10 10 "red".
Definition blue : Tile.t := Tile.mk 5 5 10 10 "blue".
Definition green : Tile.t := Tile.mk 2 2 20 20 "green".

(** The list after [addBack] of [red], then of [blue]: [red] is in front. *)
Definition two_tiles : TileList :=
  mkTileList
    {[ 1%positive := TileNode.mk 0 0 10 10 "red" None (Some 2%positive);
       2%positive := TileNode.mk 5 5 10 10 "blue" (Some 1%positive) None ]}
    (Some 1%positive) (Some 2%positive).

(** The list after [addBack] of [red], [blue] and [green]. *)
Definition three_tiles : TileList :=
  mkTileList
    {[ 1%positive := TileNode.mk 0 0 10 10 "red" None (Some 2%positive);
       2%positive := TileNode.mk 5 5 10 10 "blue" (Some 1%positive) (Some 3%positive);
       3%positive := TileNode.mk 2 2 20 20 "green" (Some 2%positive) None ]}
    (Some 1%positive) (Some 3%positive).

(** The list after [addFront] of [red] alone. *)
Definition one_tile : TileList :=
  mkTileList {[ 1%positive := TileNode.mk 0 0 10 10 "red" None None ]}
    (Some 1%positive) (Some 1%positive).

(** Two wide tiles: their fields and their right and bottom edges are
    values of [int] and both contain [(0,0)], but from the left edge of the
    first to the right edge of the second it is 4000000000, more than
    [INT_MAX]. *)
Definition wide_a : Tile.t := Tile.mk (-2000000000) 0 2000000001 10 "a".
Definition wide_b : Tile.t := Tile.mk 0 0 2000000000 10 "b".

(** The list after [addBack] of [wide_a], then of [wide_b]. *)
Definition wide_tiles : TileList :=
  mkTileList
    {[ 1%positive :=
         TileNode.mk (-2000000000) 0 2000000001 10 "a" None (Some 2%positive);
       2%positive :=
         TileNode.mk 0 0 2000000000 10 "b" (Some 1%positive) None ]}
    (Some 1%positive) (Some 2%positive).

(** ** The member functions outside the point operations *)

(** [delete p] on a pointer that may be null: deleting null does nothing. *)
Definition delete_ptr (p : option loc) : M unit :=
  match p with
  | Some a => delete_node a
  | None => mret tt
  end.

(** [TileList::~TileList()] *)
Definition TileList_delete : M unit :=
  clear;;
  f ← getFront;
  delete_ptr f;;
  b ← getBack;
  delete_ptr b.

(** [TileList::drawAll].  The calls [current->draw(window)] are recorded as
    the list of the nodes they are made on, in the order of the calls; what
    [TileNode::draw] does to the window is not part of this file. *)
Fixpoint drawAll_loop (fuel : nat) (current : option loc)
  : M (list TileNode.t) :=
  match fuel with
  | O => fault
  | S fuel' =>
    match current with
    | None => mret []
    | Some c =>
      n ← load c;
      rest ← drawAll_loop fuel' (TileNode.prev n);
      mret (n :: rest)
    end
  end.

Definition drawAll : M (list TileNode.t) :=
  fuel ← fuel_of;
  current ← getBack;
  drawAll_loop fuel current.

(** [TileList::debug].  The lines [cout << "Node " << *current << endl] are
    recorded as the list of the nodes printed, in the order of the lines. *)
Fixpoint debug_loop (fuel : nat) (current : option loc)
  : M (list TileNode.t) :=
  match fuel with
  | O => fault
  | S fuel' =>
    match current with
    | None => mret []
    | Some c =>
      n ← load c;
      rest ← debug_loop fuel' (TileNode.prev n);
      mret (n :: rest)
    end
  end.

Definition debug : M (list TileNode.t) :=
  fuel ← fuel_of;
  current ← getBack;
  debug_loop fuel current.

(** ** Allocation *)



(** * Properties *)

(** ** Doubly linked segments *)

Section dll_facts.
Implicit Types (h : gmap loc TileNode.t) (l : list entry) (p q : option loc).

Lemma first_or_app q l1 l2 : first_or q (l1 ++ l2) = first_or (first_or q l2) l1.
Proof. by destruct l1. Qed.

Lemma last_or_app p l1 l2 : last_or p (l1 ++ l2) = last_or (last_or p l1) l2.
Proof.
  unfold last_or. rewrite last_app. by destruct (last l2).
Qed.

Lemma last_or_snoc p l e : last_or p (l ++ [e]) = Some e.1.
Proof. unfold last_or. by rewrite last_snoc. Qed.

Lemma last_or_cons p e l : last_or p (e :: l) = last_or (Some e.1) l.
Proof. apply (last_or_app p [e] l). Qed.

Lemma first_or_fst q l : first_or q l = from_option Some q (head l.*1).
Proof. by destruct l. Qed.

Lemma last_or_fst p l : last_or p l = from_option Some p (last l.*1).
Proof. unfold last_or. rewrite fmap_last. by destruct (last l). Qed.

Lemma dll_app h p l1 l2 q :
  dll h p (l1 ++ l2) q ↔
  dll h p l1 (first_or q l2) ∧ dll h (last_or p l1) l2 q.
Proof.
  revert p. induction l1 as [|e l1 IH]; intros p; simpl.
  { tauto. }
  rewrite last_or_cons, first_or_app.
  destruct (h !! e.1); [|tauto].
  rewrite IH. tauto.
Qed.

Lemma dll_insert_ne h p l q a n :
  a ∉ l.*1 → dll h p l q → dll (<[a:=n]> h) p l q.
Proof.
  revert p. induction l as [|e l IH]; intros p Ha; simpl; [done|].
  rewrite fmap_cons, not_elem_of_cons in Ha. destruct Ha as [Hne Ha].
  rewrite lookup_insert_ne by done.
  destruct (h !! e.1); [|done]. naive_solver.
Qed.

Lemma dll_delete_ne h p l q a :
  a ∉ l.*1 → dll h p l q → dll (delete a h) p l q.
Proof.
  revert p. induction l as [|e l IH]; intros p Ha; simpl; [done|].
  rewrite fmap_cons, not_elem_of_cons in Ha. destruct Ha as [Hne Ha].
  rewrite lookup_delete_ne by done.
  destruct (h !! e.1); [|done]. naive_solver.
Qed.

Lemma dll_lookup h p l q e :
  dll h p l q → e ∈ l → ∃ n, h !! e.1 = Some n ∧ tile_of n = e.2.
Proof.
  revert p. induction l as [|e' l IH]; intros p Hd He.
  { by apply elem_of_nil in He. }
  simpl in Hd. destruct (h !! e'.1) as [n|] eqn:Hn; [|done].
  apply elem_of_cons in He as [->|He]; [naive_solver|].
  destruct Hd as (_ & _ & _ & Hd). eauto.
Qed.

Lemma dll_dom h p l q a : dll h p l q → a ∈ l.*1 → a ∈ dom h.
Proof.
  intros Hd Ha. apply list_elem_of_fmap in Ha as (e & -> & He).
  destruct (dll_lookup _ _ _ _ _ Hd He) as (n & Hn & _).
  apply elem_of_dom. eauto.
Qed.

Lemma dll_length h p l q :
  NoDup l.*1 → dll h p l q → (length l ≤ size h)%nat.
Proof.
  intros Hnd Hd.
  assert (list_to_set (C := gset loc) l.*1 ⊆ dom h) as Hsub.
  { intros a Ha. apply elem_of_list_to_set in Ha. eauto using dll_dom. }
  apply subseteq_size in Hsub.
  rewrite size_list_to_set, size_dom, length_fmap in Hsub; done.
Qed.

(** Redirecting the [next] of the last node. *)
Lemma dll_set_last_next h p l e q q' n :
  e.1 ∉ l.*1 → h !! e.1 = Some n → dll h p (l ++ [e]) q →
  dll (<[e.1 := TileNode.set_next q' n]> h) p (l ++ [e]) q'.
Proof.
  intros Hni Hn Hd. apply dll_app in Hd as [H1 H2]. apply dll_app. split.
  - by apply dll_insert_ne.
  - simpl in *. rewrite Hn in H2. rewrite lookup_insert_eq. naive_solver.
Qed.

(** Redirecting the [prev] of the first node. *)
Lemma dll_set_head_prev h p p' e l q n :
  e.1 ∉ l.*1 → h !! e.1 = Some n → dll h p (e :: l) q →
  dll (<[e.1 := TileNode.set_prev p' n]> h) p' (e :: l) q.
Proof.
  intros Hni Hn Hd. simpl in *. rewrite Hn in Hd. rewrite lookup_insert_eq.
  destruct Hd as (? & ? & ? & ?). repeat split; try done.
  by apply dll_insert_ne.
Qed.

(** A list is empty or ends with a last entry. *)
Lemma dll_snoc_case l : l = [] ∨ ∃ l' e, l = l' ++ [e].
Proof. destruct l using rev_ind; eauto. Qed.

End dll_facts.


(** ** Rules for the primitives *)

Section rules.
Context {A B : Type}.
Implicit Types (Q : A → TileList → Prop).

Lemma post_ret (a : A) s Q : Q a s → post (mret a) s Q.
Proof. intros H. by exists a, s. Qed.

Lemma post_bind (m : M B) (k : B → M A) s Q :
  post m s (λ b s', post (k b) s' Q) → post (m ≫= k) s Q.
Proof.
  intros (b & s' & Hm & a & s'' & Hk & HQ). exists a, s''.
  unfold mbind, M_bind. by rewrite Hm.
Qed.

Lemma post_mono (m : M A) s Q Q' :
  post m s Q → (∀ a s', Q a s' → Q' a s') → post m s Q'.
Proof. intros (a & s' & Hm & HQ) H. exists a, s'. eauto. Qed.

Lemma post_eq (m : M A) s a s' Q : m s = Some (a, s') → Q a s' → post m s Q.
Proof. intros. by exists a, s'. Qed.

End rules.

Section primitive_rules.
Implicit Types (s : TileList) (p : loc).

Lemma post_getFront s Q : Q (front s) s → post getFront s Q.
Proof. by apply post_eq. Qed.

Lemma post_getBack s Q : Q (back s) s → post getBack s Q.
Proof. by apply post_eq. Qed.

Lemma post_setFront s v Q :
  Q tt (mkTileList (heap s) v (back s)) → post (setFront v) s Q.
Proof. by apply post_eq. Qed.

Lemma post_setBack s v Q :
  Q tt (mkTileList (heap s) (front s) v) → post (setBack v) s Q.
Proof. by apply post_eq. Qed.

Lemma post_fuel_of s Q : Q (S (size (heap s))) s → post fuel_of s Q.
Proof. by apply post_eq. Qed.

Lemma post_deref s v p Q : v = Some p → Q p s → post (deref v) s Q.
Proof. intros ->. by apply post_eq. Qed.

Lemma post_load s p n Q : heap s !! p = Some n → Q n s → post (load p) s Q.
Proof. intros H. apply post_eq. unfold load. by rewrite H. Qed.

Lemma post_store s p n n' Q :
  heap s !! p = Some n →
  Q tt (mkTileList (<[p:=n']> (heap s)) (front s) (back s)) →
  post (store p n') s Q.
Proof. intros H. apply post_eq. unfold store. by rewrite H. Qed.

Lemma post_assign_next s p v n Q :
  heap s !! p = Some n →
  Q tt (mkTileList (<[p:=TileNode.set_next v n]> (heap s)) (front s) (back s)) →
  post (assign_next p v) s Q.
Proof.
  intros H HQ. apply post_bind, (post_load _ _ n); [done|].
  by apply (post_store _ _ n).
Qed.

Lemma post_assign_prev s p v n Q :
  heap s !! p = Some n →
  Q tt (mkTileList (<[p:=TileNode.set_prev v n]> (heap s)) (front s) (back s)) →
  post (assign_prev p v) s Q.
Proof.
  intros H HQ. apply post_bind, (post_load _ _ n); [done|].
  by apply (post_store _ _ n).
Qed.

Lemma post_assign_color s p c n Q :
  heap s !! p = Some n →
  Q tt (mkTileList (<[p:=TileNode.set_color c n]> (heap s)) (front s) (back s)) →
  post (assign_color p c) s Q.
Proof.
  intros H HQ. apply post_bind, (post_load _ _ n); [done|].
  by apply (post_store _ _ n).
Qed.

Lemma post_delete_node s p n Q :
  heap s !! p = Some n →
  Q tt (mkTileList (delete p (heap s)) (front s) (back s)) →
  post (delete_node p) s Q.
Proof. intros H. apply post_eq. unfold delete_node. by rewrite H. Qed.

Lemma post_new s n Q :
  (∀ p, heap s !! p = None →
        Q p (mkTileList (<[p:=n]> (heap s)) (front s) (back s))) →
  post (new n) s Q.
Proof.
  intros H. eapply post_eq; [done|]. apply H.
  apply not_elem_of_dom, is_fresh.
Qed.

End primitive_rules.

(** ** Facts about [repr] *)

Lemma repr_front s l : repr s l → front s = first_or None l.
Proof. by intros (_ & ? & _). Qed.

Lemma repr_back s l : repr s l → back s = last_or None l.
Proof. by intros (_ & _ & ? & _). Qed.

Lemma repr_NoDup s l : repr s l → NoDup l.*1.
Proof. by intros (_ & _ & _ & ?). Qed.

Lemma repr_lookup s l e :
  repr s l → e ∈ l → ∃ n, heap s !! e.1 = Some n ∧ tile_of n = e.2.
Proof. intros (Hd & _) He. eauto using dll_lookup. Qed.

Lemma repr_fuel s l : repr s l → (length l ≤ size (heap s))%nat.
Proof. intros (Hd & _ & _ & Hnd). eauto using dll_length. Qed.

Lemma NoDup_middle (l1 l2 : list entry) e :
  NoDup (l1 ++ e :: l2).*1 →
  (e.1 ∉ l1.*1) ∧ (e.1 ∉ l2.*1) ∧ NoDup (l1 ++ l2).*1.
Proof.
  rewrite !fmap_app, fmap_cons. intros H.
  apply NoDup_app in H as (H1 & H2 & H3).
  apply NoDup_cons in H3 as [H3 H4].
  split_and!; [set_solver|done|].
  apply NoDup_app. set_solver.
Qed.

Lemma first_or_elem (l : list entry) q :
  l ≠ [] → ∃ a, first_or q l = Some a ∧ a ∈ l.*1.
Proof. destruct l as [|e l]; [done|]. intros _. exists e.1. set_solver. Qed.

Lemma last_or_elem (l : list entry) p :
  l ≠ [] → ∃ a, last_or p l = Some a ∧ a ∈ l.*1.
Proof.
  destruct (dll_snoc_case l) as [->|(l' & e & ->)]; [done|]. intros _.
  exists e.1. rewrite last_or_snoc. set_solver.
Qed.

(** ** [detachTile] unlinks one node and leaves it allocated *)

Lemma detachTile_spec s l1 e l2 :
  repr s (l1 ++ e :: l2) →
  post (detachTile e.1) s (λ _ s',
    repr s' (l1 ++ l2) ∧ ∃ n, heap s' !! e.1 = Some n ∧ tile_of n = e.2).
Proof.
  intros Hr.
  destruct (repr_lookup s _ e Hr) as (n & Hn & Hte); [set_solver|].
  pose proof (repr_NoDup _ _ Hr) as Hnd.
  pose proof Hnd as Hnd0.
  apply NoDup_middle in Hnd as (Hn1 & Hn2 & Hnd).
  destruct s as [h f b]. destruct Hr as (Hd & Hf & Hb & _). simpl in *.
  apply dll_app in Hd as [Hd1 Hd2]. simpl in Hd2. rewrite Hn in Hd2.
  destruct Hd2 as (_ & Hprev & Hnext & Hd2).
  rewrite first_or_app in Hf. rewrite last_or_app, last_or_cons in Hb.
  simpl in Hf, Hd1.
  unfold detachTile.
  apply post_bind, post_getFront; simpl.
  apply post_bind.
  apply (post_mono _ _ (λ _ s', 
     dll (heap s') None l1 (first_or None l2) ∧ dll (heap s') (Some e.1) l2 None ∧
     front s' = first_or (first_or None l2) l1 ∧ back s' = b ∧ heap s' !! e.1 = Some n)).
  { destruct (dll_snoc_case l1) as [-> | (l1' & e1 & ->)].
    - simpl in *. subst f. rewrite decide_False by naive_solver.
      apply post_bind, (post_load _ _ n); [done|].
      apply post_setFront; simpl. done.
    - destruct (first_or_elem (l1' ++ [e1]) (Some e.1)) as (a & Ha & Hin);
        [by destruct l1'|].
      rewrite Hf, Ha.
      rewrite decide_True by (intros [= Heq]; apply Hn1; by rewrite Heq).
      destruct (dll_lookup _ _ _ _ e1 Hd1) as (n1 & Hn1' & _); [set_solver|].
      assert ((e1.1 ∉ l1'.*1) ∧ (e1.1 ∉ l2.*1) ∧ e1.1 ≠ e.1) as (Hi1 & Hi2 & Hne).
      { rewrite !fmap_app in Hnd0. simpl in Hnd0.
        apply NoDup_app in Hnd0 as (H1 & H2 & H3).
        apply NoDup_app in H1 as (H4 & H5 & H6).
        split_and!; set_solver. }
      apply post_bind, (post_load _ _ n); [done|].
      apply post_bind, (post_deref _ _ e1.1); [by rewrite Hprev, last_or_snoc|].
      apply (post_assign_next _ _ _ n1); [done|]. simpl.
      split_and!.
      + rewrite Hnext. by apply (dll_set_last_next _ _ _ _ (Some e.1)).
      + by apply dll_insert_ne.
      + rewrite <- Ha. by destruct l1'.
      + done.
      + by rewrite lookup_insert_ne. }
  clear dependent h. clear f Hf.
  intros [] [h f b'] (Hd1 & Hd2 & Hf & Hb' & Hn). simpl in *. subst b'.
  apply post_bind, post_getBack; simpl.
  destruct l2 as [|e2 l2].
  - simpl in *. subst b. rewrite decide_False by naive_solver.
    apply post_bind, (post_load _ _ n); [done|].
    apply post_setBack. rewrite app_nil_r in *.
    split; [|eauto]. split_and!; simpl; try done.
  - destruct (last_or_elem (e2 :: l2) (Some e.1)) as (a & Ha & Hin); [done|].
    rewrite Hb, Ha.
    rewrite decide_True by (intros [= Heq]; apply Hn2; by rewrite Heq).
    destruct (dll_lookup _ _ _ _ e2 Hd2) as (n2 & Hn2' & _); [set_solver|].
    assert ((e2.1 ∉ l1.*1) ∧ (e2.1 ∉ l2.*1) ∧ e2.1 ≠ e.1) as (Hi1 & Hi2 & Hne).
    { rewrite !fmap_app in Hnd0. simpl in Hnd0.
      apply NoDup_app in Hnd0 as (H1 & H2 & H3).
      apply NoDup_cons in H3 as (H4 & H5).
      apply NoDup_cons in H5 as (H6 & H7).
      split_and!; set_solver. }
    apply post_bind, (post_load _ _ n); [done|].
    apply post_bind, (post_deref _ _ e2.1); [by rewrite Hnext|].
    apply (post_assign_prev _ _ _ n2); [done|]. simpl.
    split.
    + split_and!; simpl; try done.
      * apply dll_app. split.
        -- by apply dll_insert_ne.
        -- rewrite Hprev. by apply (dll_set_head_prev _ (Some e.1)).
      * by rewrite first_or_app.
      * rewrite last_or_app. rewrite <- Ha. unfold last_or.
        rewrite !last_cons. by destruct (last l2).
    + exists n. by rewrite lookup_insert_ne.
Qed.

Lemma last_or_nonempty p p' (l : list entry) :
  l ≠ [] → last_or p l = last_or p' l.
Proof.
  destruct (dll_snoc_case l) as [->|(l' & e & ->)]; [done|]. intros _.
  by rewrite !last_or_snoc.
Qed.

(** ** [attachFront] and [attachBack] link an allocated node at an end *)

Lemma dll_cons h p e l q n :
  h !! e.1 = Some n → tile_of n = e.2 → TileNode.prev n = p →
  TileNode.next n = first_or q l → dll h (Some e.1) l q → dll h p (e :: l) q.
Proof. intros Hn. simpl. by rewrite Hn. Qed.

Lemma dll_cons_inv h p e l q :
  dll h p (e :: l) q →
  ∃ n, h !! e.1 = Some n ∧ tile_of n = e.2 ∧ TileNode.prev n = p ∧
       TileNode.next n = first_or q l ∧ dll h (Some e.1) l q.
Proof. simpl. destruct (h !! e.1); naive_solver. Qed.

Tactic Notation "proj" := cbn [heap front back fst snd].
Tactic Notation "proj" "in" "*" := cbn [heap front back fst snd] in *.

Lemma attachFront_spec s l a n :
  repr s l → a ∉ l.*1 → heap s !! a = Some n →
  (l = [] → TileNode.next n = None) →
  post (attachFront a) s (λ _ s', repr s' ((a, tile_of n) :: l)).
Proof.
  intros (Hd & Hf & Hb & Hnd) Ha Hn Hnil. destruct s as [h f b]. proj in *.
  unfold attachFront.
  apply post_bind, (post_assign_prev _ _ _ n); [done|]. proj.
  apply post_bind, post_getFront. proj.
  destruct l as [|e l]; simpl in Hf; subst f.
  - apply post_bind, post_setFront. proj.
    apply post_bind, post_getFront. proj.
    apply post_setBack. proj.
    split_and!; proj; try done.
    + eapply dll_cons; [apply lookup_insert_eq|..]; try done. simpl. by apply Hnil.
    + apply NoDup_singleton.
  - apply dll_cons_inv in Hd as (ne & Hne & Hd).
    rewrite fmap_cons in Ha, Hnd. apply not_elem_of_cons in Ha as [Hae Ha].
    apply NoDup_cons in Hnd as [He Hnd].
    apply post_bind, (post_assign_next _ _ _ (TileNode.set_prev None n));
      [by proj; rewrite lookup_insert_eq|]. proj.
    rewrite insert_insert_eq.
    set (h2 := <[a:=_]> h).
    assert (h2 !! e.1 = Some ne) as Hne2 by (by subst h2; rewrite lookup_insert_ne).
    assert (dll h2 None (e :: l) None) as Hd2.
    { apply dll_insert_ne; [set_solver|].
      destruct Hd as (? & ? & ? & ?). by eapply dll_cons. }
    apply post_bind, (post_assign_prev _ _ _ ne); [done|]. proj.
    apply post_setFront. proj.
    split_and!; proj.
    + eapply dll_cons.
      * rewrite lookup_insert_ne by done. subst h2. apply lookup_insert_eq.
      * done.
      * done.
      * done.
      * by apply (dll_set_head_prev _ None).
    + done.
    + rewrite Hb. rewrite (last_or_cons _ (a, tile_of n)). by apply last_or_nonempty.
    + apply NoDup_cons. split; [set_solver|]. by apply NoDup_cons.
Qed.

Lemma attachBack_spec s l a n :
  repr s l → a ∉ l.*1 → heap s !! a = Some n →
  (l = [] → TileNode.prev n = None) →
  post (attachBack a) s (λ _ s', repr s' (l ++ [(a, tile_of n)])).
Proof.
  intros (Hd & Hf & Hb & Hnd) Ha Hn Hnil. destruct s as [h f b]. proj in *.
  unfold attachBack.
  apply post_bind, (post_assign_next _ _ _ n); [done|]. proj.
  apply post_bind, post_getFront. proj.
  destruct (dll_snoc_case l) as [->|(l' & e & ->)].
  - simpl in Hf; subst f.
    apply post_bind, post_setFront. proj.
    apply post_bind, post_getFront. proj.
    apply post_setBack. proj.
    split_and!; proj; try done.
    + eapply dll_cons; [apply lookup_insert_eq|..]; try done. simpl. by apply Hnil.
    + apply NoDup_singleton.
  - destruct (first_or_elem (l' ++ [e]) None) as (a0 & Ha0 & _); [by destruct l'|].
    rewrite Hf, Ha0.
    rewrite last_or_snoc in Hb. subst b.
    destruct (dll_lookup _ _ _ _ e Hd) as (ne & Hne & _); [set_solver|].
    rewrite fmap_app in Ha, Hnd. simpl in Ha, Hnd.
    apply not_elem_of_app in Ha as [Ha Hae].
    apply NoDup_app in Hnd as (Hnd & He & _).
    assert (e.1 ∉ l'.*1) as Hel by set_solver.
    assert (a ≠ e.1) as Hae' by set_solver.
    apply post_bind, post_getBack. proj.
    apply post_bind, (post_assign_prev _ _ _ (TileNode.set_next None n));
      [by proj; rewrite lookup_insert_eq|]. proj.
    rewrite insert_insert_eq.
    set (h2 := <[a:=_]> h).
    assert (h2 !! e.1 = Some ne) as Hne2 by (by subst h2; rewrite lookup_insert_ne).
    assert (dll h2 None (l' ++ [e]) None) as Hd2.
    { apply dll_insert_ne; [rewrite fmap_app; set_solver|]. done. }
    apply post_bind, (post_deref _ _ e.1); [done|].
    apply post_bind, (post_assign_next _ _ _ ne); [done|]. proj.
    apply post_setBack. proj.
    split_and!; proj.
    + apply dll_app. split.
      * by apply (dll_set_last_next _ _ _ _ None).
      * rewrite last_or_snoc. eapply dll_cons.
        -- rewrite lookup_insert_ne by done. subst h2. apply lookup_insert_eq.
        -- done.
        -- done.
        -- done.
        -- done.
    + rewrite first_or_app. rewrite <- Ha0. by destruct l'.
    + by rewrite last_or_snoc.
    + rewrite !fmap_app. simpl. apply NoDup_app. split_and!; [|set_solver|apply NoDup_singleton].
      apply NoDup_app. split_and!; [done|set_solver|apply NoDup_singleton].
Qed.

(** ** [findTile] returns the first hit and changes nothing *)

Lemma contains_tile_of n x y :
  TileNode.contains n x y = Tile.contains (tile_of n) x y.
Proof. done. Qed.

Lemma first_hit_Some x y l e :
  first_hit x y l = Some e →
  ∃ l1 l2, l = l1 ++ e :: l2 ∧ Forall (λ e', ¬ hits x y e') l1 ∧ hits x y e.
Proof.
  induction l as [|e' l IH]; simpl; [done|].
  destruct (Tile.contains e'.2 x y) eqn:Hc.
  - intros [= ->]. by exists [], l.
  - intros (l1 & l2 & -> & H1 & H2)%IH. exists (e' :: l1), l2.
    split_and!; try done. constructor; [|done]. unfold hits. by rewrite Hc.
Qed.

Lemma first_hit_None x y l :
  first_hit x y l = None ↔ Forall (λ e, ¬ hits x y e) l.
Proof.
  induction l as [|e l IH]; simpl; [by split|].
  rewrite Forall_cons. unfold hits at 1.
  destruct (Tile.contains e.2 x y); naive_solver.
Qed.

Lemma first_hit_app x y l1 l2 :
  Forall (λ e, ¬ hits x y e) l1 →
  first_hit x y (l1 ++ l2) = first_hit x y l2.
Proof.
  induction 1 as [|e l1 He _ IH]; simpl; [done|].
  unfold hits in He. by destruct (Tile.contains e.2 x y).
Qed.

Lemma findTile_loop_spec fuel x y s p l :
  dll (heap s) p l None → (length l < fuel)%nat →
  findTile_loop fuel x y (first_or None l) s =
    Some (fst <$> first_hit x y l, s).
Proof.
  revert p l. induction fuel as [|fuel IH]; intros p l Hd Hlen; [lia|].
  destruct l as [|e l]; [done|].
  apply dll_cons_inv in Hd as (n & Hn & Ht & _ & Hnext & Hd).
  cbn [findTile_loop first_or first_hit].
  unfold mbind, M_bind, load. rewrite Hn.
  rewrite contains_tile_of, Ht.
  destruct (Tile.contains e.2 x y); [done|].
  rewrite Hnext. eapply IH; [done|]. simpl in Hlen. lia.
Qed.

Lemma findTile_spec x y s l :
  repr s l → findTile x y s = Some (fst <$> first_hit x y l, s).
Proof.
  intros Hr. pose proof (repr_fuel _ _ Hr) as Hlen.
  destruct Hr as (Hd & Hf & _).
  unfold findTile, mbind, M_bind, fuel_of, getFront. rewrite Hf.
  eapply findTile_loop_spec; [done|lia].
Qed.

Lemma post_findTile x y s l Q :
  repr s l → Q (fst <$> first_hit x y l) s → post (findTile x y) s Q.
Proof. intros Hr HQ. eapply post_eq; [by apply findTile_spec|done]. Qed.

(** ** Deleting a node that is not linked *)

Lemma repr_delete h f b l a :
  repr (mkTileList h f b) l → a ∉ l.*1 → repr (mkTileList (delete a h) f b) l.
Proof.
  intros (Hd & Hf & Hb & Hnd) Ha. split_and!; try done.
  by apply dll_delete_ne.
Qed.

Lemma repr_insert_fresh h f b l a n :
  repr (mkTileList h f b) l → a ∉ l.*1 → repr (mkTileList (<[a:=n]> h) f b) l.
Proof.
  intros (Hd & Hf & Hb & Hnd) Ha. split_and!; try done.
  by apply dll_insert_ne.
Qed.

Lemma repr_not_in s l a : repr s l → heap s !! a = None → a ∉ l.*1.
Proof.
  intros (Hd & _) Hn Ha. apply (dll_dom _ _ _ _ _ Hd), elem_of_dom in Ha.
  rewrite Hn in Ha. by destruct Ha.
Qed.

(** [detachTile] followed by [delete]: the body of [remove] and of the two
    draining loops. *)
Lemma post_detach_delete {A} s l1 e l2 (k : M A) Q :
  repr s (l1 ++ e :: l2) →
  (∀ s', repr s' (l1 ++ l2) → post k s' Q) →
  post (detachTile e.1;; delete_node e.1;; k) s Q.
Proof.
  intros Hr Hk.
  pose proof (repr_NoDup _ _ Hr) as (Hn1 & Hn2 & _)%NoDup_middle.
  apply post_bind. eapply post_mono; [by apply detachTile_spec|].
  intros [] [h f b] (Hr' & n & Hn & _). proj in *.
  apply post_bind, (post_delete_node _ _ n); [done|]. proj.
  apply Hk, repr_delete; [done|]. rewrite fmap_app. set_solver.
Qed.

(** ** The point operations on a represented list *)

Section point_operations.
Variables (x y : Z).
Implicit Types (s : TileList) (l : list entry) (e : entry).

Lemma first_hit_split l1 e l2 :
  miss x y l1 → hits x y e → first_hit x y (l1 ++ e :: l2) = Some e.
Proof.
  intros H1 H2. rewrite first_hit_app by done. simpl.
  unfold hits in H2. by rewrite H2.
Qed.

Lemma first_hit_miss l : miss x y l → first_hit x y l = None.
Proof. apply first_hit_None. Qed.

Lemma highlight_miss s l :
  repr s l → miss x y l → highlight x y s = Some (false, s).
Proof.
  intros Hr Hm. unfold highlight, mbind, M_bind.
  by rewrite (findTile_spec _ _ _ _ Hr), first_hit_miss.
Qed.

Lemma highlight_hit s l1 e l2 :
  repr s (l1 ++ e :: l2) → miss x y l1 → hits x y e →
  post (highlight x y) s (λ b s',
    b = true ∧ repr s' (l1 ++ (e.1, Tile.set_color "yellow" e.2) :: l2)).
Proof.
  intros Hr H1 H2. unfold highlight.
  apply post_bind, (post_findTile _ _ _ _ _ Hr).
  rewrite first_hit_split by done. simpl.
  destruct (repr_lookup _ _ e Hr) as (n & Hn & Ht); [set_solver|].
  pose proof (repr_NoDup _ _ Hr) as (Hn1 & Hn2 & _)%NoDup_middle.
  apply post_bind, (post_assign_color _ _ _ n); [done|].
  apply post_ret. split; [done|].
  destruct Hr as (Hd & Hf & Hb & Hnd). destruct s as [h f b]. proj in *.
  apply dll_app in Hd as [Hd1 Hd2].
  apply dll_cons_inv in Hd2 as (n' & Hn' & _ & Hp & Hq & Hd2).
  assert (n' = n) as -> by congruence.
  split_and!; proj.
  - apply dll_app. split.
    + by apply dll_insert_ne.
    + eapply dll_cons; [apply lookup_insert_eq|..]; try done.
      * by rewrite <- Ht.
      * by apply dll_insert_ne.
  - by rewrite first_or_app in *.
  - by rewrite last_or_app, last_or_cons in *.
  - by rewrite fmap_app, fmap_cons in *.
Qed.

Lemma raise_miss s l : repr s l → miss x y l → raise x y s = Some (false, s).
Proof.
  intros Hr Hm. unfold raise, mbind, M_bind.
  by rewrite (findTile_spec _ _ _ _ Hr), first_hit_miss.
Qed.

Lemma raise_front s e l2 :
  repr s (e :: l2) → hits x y e → raise x y s = Some (false, s).
Proof.
  intros Hr He. unfold raise, mbind, M_bind.
  pose proof (first_hit_split [] e l2 (Forall_nil_2 _) He) as Hfh.
  change ([] ++ e :: l2) with (e :: l2) in Hfh.
  rewrite (findTile_spec _ _ _ _ Hr), Hfh.
  unfold getFront. rewrite (repr_front _ _ Hr). simpl.
  by rewrite decide_False by naive_solver.
Qed.

Lemma raise_hit s l1 e l2 :
  repr s (l1 ++ e :: l2) → l1 ≠ [] → miss x y l1 → hits x y e →
  post (raise x y) s (λ b s', b = true ∧ repr s' (e :: l1 ++ l2)).
Proof.
  intros Hr Hne H1 H2. unfold raise.
  apply post_bind, (post_findTile _ _ _ _ _ Hr).
  rewrite first_hit_split by done. simpl.
  apply post_bind, post_getFront.
  pose proof (repr_NoDup _ _ Hr) as (Hn1 & Hn2 & _)%NoDup_middle.
  rewrite (repr_front _ _ Hr), first_or_app.
  destruct (first_or_elem l1 (first_or None (e :: l2))) as (a & -> & Ha); [done|].
  rewrite decide_True by (intros [= Heq]; apply Hn1; by rewrite Heq).
  apply post_bind. eapply post_mono; [by apply detachTile_spec|].
  intros _ s' (Hr' & n & Hn & Ht).
  apply post_bind. eapply post_mono.
  { eapply attachFront_spec; [done| |done|].
    - rewrite fmap_app. set_solver.
    - by destruct l1. }
  intros [] s'' Hr''. apply post_ret. split; [done|].
  rewrite Ht in Hr''. by rewrite <- surjective_pairing in Hr''.
Qed.

Lemma lower_miss s l : repr s l → miss x y l → lower x y s = Some (false, s).
Proof.
  intros Hr Hm. unfold lower, mbind, M_bind.
  by rewrite (findTile_spec _ _ _ _ Hr), first_hit_miss.
Qed.

Lemma lower_back s l1 e :
  repr s (l1 ++ [e]) → miss x y l1 → hits x y e →
  lower x y s = Some (false, s).
Proof.
  intros Hr H1 He. unfold lower, mbind, M_bind.
  rewrite (findTile_spec _ _ _ _ Hr), first_hit_split by done.
  unfold getBack. rewrite (repr_back _ _ Hr), last_or_snoc. simpl.
  by rewrite decide_False by naive_solver.
Qed.

Lemma lower_hit s l1 e l2 :
  repr s (l1 ++ e :: l2) → l2 ≠ [] → miss x y l1 → hits x y e →
  post (lower x y) s (λ b s', b = true ∧ repr s' (l1 ++ l2 ++ [e])).
Proof.
  intros Hr Hne H1 H2. unfold lower.
  apply post_bind, (post_findTile _ _ _ _ _ Hr).
  rewrite first_hit_split by done. simpl.
  apply post_bind, post_getBack.
  pose proof (repr_NoDup _ _ Hr) as (Hn1 & Hn2 & _)%NoDup_middle.
  rewrite (repr_back _ _ Hr), last_or_app, last_or_cons.
  destruct (last_or_elem l2 (Some e.1)) as (a & -> & Ha); [done|].
  rewrite decide_True by (intros [= Heq]; apply Hn2; by rewrite Heq).
  apply post_bind. eapply post_mono; [by apply detachTile_spec|].
  intros _ s' (Hr' & n & Hn & Ht).
  apply post_bind. eapply post_mono.
  { eapply attachBack_spec; [done| |done|].
    - rewrite fmap_app. set_solver.
    - intros [_ ?]%app_eq_nil. done. }
  intros [] s'' Hr''. apply post_ret. split; [done|].
  rewrite Ht, <- app_assoc in Hr''. by rewrite <- surjective_pairing in Hr''.
Qed.

Lemma remove_miss s l : repr s l → miss x y l → remove x y s = Some (false, s).
Proof.
  intros Hr Hm. unfold remove, mbind, M_bind.
  by rewrite (findTile_spec _ _ _ _ Hr), first_hit_miss.
Qed.

Lemma remove_hit s l1 e l2 :
  repr s (l1 ++ e :: l2) → miss x y l1 → hits x y e →
  post (remove x y) s (λ b s', b = true ∧ repr s' (l1 ++ l2)).
Proof.
  intros Hr H1 H2. unfold remove.
  apply post_bind, (post_findTile _ _ _ _ _ Hr).
  rewrite first_hit_split by done. simpl.
  apply (post_detach_delete _ _ _ _ _ _ Hr). intros s' Hr'.
  by apply post_ret.
Qed.

End point_operations.

(** ** The draining loops *)

Section draining.
Variables (x y : Z).
Implicit Types (s : TileList) (l : list entry) (e : entry).

Lemma filter_hits_split l1 e l2 :
  miss x y l1 → hits x y e →
  filter (hits x y) (l1 ++ e :: l2) = e :: filter (hits x y) (l1 ++ l2) ∧
  filter (λ e', ¬ hits x y e') (l1 ++ e :: l2) =
    filter (λ e', ¬ hits x y e') (l1 ++ l2).
Proof.
  intros H1 H2. rewrite !filter_app.
  rewrite filter_cons_True by done.
  rewrite (filter_cons_False (λ e', ¬ hits x y e')) by naive_solver.
  assert (filter (hits x y) l1 = []) as ->; [|done].
  clear -H1. induction H1; [done|]. by rewrite filter_cons_False.
Qed.

Lemma filter_hits_miss l :
  miss x y l →
  filter (hits x y) l = [] ∧ filter (λ e', ¬ hits x y e') l = l.
Proof.
  induction 1 as [|e l He _ [IH1 IH2]]; [done|].
  rewrite filter_cons_False, filter_cons_True by done.
  by rewrite IH1, IH2.
Qed.

Lemma first_hit_cases l :
  miss x y l ∧ first_hit x y l = None ∨
  ∃ l1 e l2, l = l1 ++ e :: l2 ∧ miss x y l1 ∧ hits x y e ∧
             first_hit x y l = Some e.
Proof.
  destruct (first_hit x y l) as [e|] eqn:Hfh.
  - right. apply first_hit_Some in Hfh as (l1 & l2 & -> & H1 & H2).
    exists l1, e, l2. by split_and!.
  - left. split; [|done]. by apply first_hit_None.
Qed.

Lemma wrap_succ z : int_add (wrap z) 1 = wrap (z + 1).
Proof.
  unfold int_add, wrap.
  replace ((z + 2 ^ 31) `mod` 2 ^ 32 - 2 ^ 31 + 1 + 2 ^ 31)
    with ((z + 2 ^ 31) `mod` 2 ^ 32 + 1) by lia.
  replace (z + 1 + 2 ^ 31) with (z + 2 ^ 31 + 1) by lia.
  by rewrite Zplus_mod_idemp_l.
Qed.

Lemma wrap_id z : in_int z → wrap z = z.
Proof.
  unfold in_int, INT_MIN, INT_MAX, wrap. intros H.
  rewrite Z.mod_small; lia.
Qed.

Lemma removeAll_loop_spec fuel s l z :
  repr s l → (length l < fuel)%nat →
  post (removeAll_loop fuel x y (fst <$> first_hit x y l) (wrap z)) s
    (λ r s', r = wrap (z + Z.of_nat (length (filter (hits x y) l))) ∧
             repr s' (filter (λ e, ¬ hits x y e) l)).
Proof.
  revert s l z. induction fuel as [|fuel IH]; intros s l z Hr Hlen; [lia|].
  destruct (first_hit_cases l) as [[Hm ->]|(l1 & e & l2 & -> & H1 & H2 & ->)].
  - apply post_ret. destruct (filter_hits_miss l Hm) as [-> ->].
    split; [|done]. f_equal. simpl. lia.
  - cbn [removeAll_loop fmap option_fmap option_map].
    apply (post_detach_delete _ _ _ _ _ _ Hr). intros s' Hr'.
    apply post_bind, (post_findTile _ _ _ _ _ Hr').
    rewrite wrap_succ.
    eapply post_mono.
    { apply IH; [done|]. rewrite length_app in *. simpl in Hlen. lia. }
    intros r s'' [-> Hr'']. destruct (filter_hits_split l1 e l2 H1 H2) as [-> ->].
    split; [|done]. f_equal. simpl length. lia.
Qed.

Lemma removeAll_spec s l :
  repr s l →
  post (removeAll x y) s
    (λ r s', r = wrap (Z.of_nat (length (filter (hits x y) l))) ∧
             repr s' (filter (λ e, ¬ hits x y e) l)).
Proof.
  intros Hr. unfold removeAll.
  apply post_bind, post_fuel_of.
  apply post_bind, (post_findTile _ _ _ _ _ Hr).
  apply (removeAll_loop_spec _ _ _ 0 Hr).
  pose proof (repr_fuel _ _ Hr). lia.
Qed.

Lemma merge_loop_spec fuel s l acc :
  repr s l → (length l < fuel)%nat →
  post (merge_loop fuel x y (fst <$> first_hit x y l)
          acc.1.1.1 acc.1.1.2 acc.1.2 acc.2) s
    (λ r s', r = foldl grow acc (filter (hits x y) l).*2 ∧
             repr s' (filter (λ e, ¬ hits x y e) l)).
Proof.
  revert s l acc. induction fuel as [|fuel IH]; intros s l acc Hr Hlen; [lia|].
  destruct (first_hit_cases l) as [[Hm ->]|(l1 & e & l2 & -> & H1 & H2 & ->)].
  - apply post_ret. destruct (filter_hits_miss l Hm) as [-> ->].
    split; [|done]. by destruct acc as [[[? ?] ?] ?].
  - cbn [merge_loop fmap option_fmap option_map].
    pose proof (repr_NoDup _ _ Hr) as (Hn1 & Hn2 & _)%NoDup_middle.
    apply post_bind. eapply post_mono; [by apply detachTile_spec|].
    intros [] [h f b] (Hr' & n & Hn & Ht). proj in *.
    apply post_bind, (post_load _ _ n); [done|].
    apply post_bind, (post_delete_node _ _ n); [done|]. proj.
    assert (repr (mkTileList (delete e.1 h) f b) (l1 ++ l2)) as Hr''.
    { apply repr_delete; [done|]. rewrite fmap_app. set_solver. }
    apply post_bind, (post_findTile _ _ _ _ _ Hr'').
    eapply post_mono.
    { assert (length (l1 ++ l2) < fuel)%nat as Hlen'.
      { rewrite length_app in *. simpl in Hlen. lia. }
      pose proof (IH _ _ (grow acc e.2) Hr'' Hlen') as HIH.
      rewrite <- Ht in HIH at 1 2 3 4.
      destruct acc as [[[? ?] ?] ?]. exact HIH. }
    intros r s'' [-> Hr3]. destruct (filter_hits_split l1 e l2 H1 H2) as [-> ->].
    done.
Qed.

End draining.

(** ** [addFront], [addBack], [merge], [clear] and the traversal *)

Lemma addFront_spec s l x y w h c :
  repr s l →
  post (addFront x y w h c) s (λ _ s',
    ∃ p, (p ∉ l.*1) ∧ repr s' ((p, Tile.mk x y w h c) :: l)).
Proof.
  intros Hr. unfold addFront. apply post_bind, post_new. intros p Hp.
  pose proof (repr_not_in _ _ _ Hr Hp) as Hpl.
  destruct s as [hp f b]. proj in *.
  eapply post_mono.
  { eapply attachFront_spec.
    - by apply repr_insert_fresh.
    - done.
    - proj. apply lookup_insert_eq.
    - done. }
  intros [] s' Hr'. by exists p.
Qed.

Lemma addBack_spec s l x y w h c :
  repr s l →
  post (addBack x y w h c) s (λ _ s',
    ∃ p, (p ∉ l.*1) ∧ repr s' (l ++ [(p, Tile.mk x y w h c)])).
Proof.
  intros Hr. unfold addBack. apply post_bind, post_new. intros p Hp.
  pose proof (repr_not_in _ _ _ Hr Hp) as Hpl.
  destruct s as [hp f b]. proj in *.
  eapply post_mono.
  { eapply attachBack_spec.
    - by apply repr_insert_fresh.
    - done.
    - proj. apply lookup_insert_eq.
    - done. }
  intros [] s' Hr'. by exists p.
Qed.

Lemma merge_miss x y s l : repr s l → miss x y l → merge x y s = Some (tt, s).
Proof.
  intros Hr Hm. unfold merge, mbind, M_bind, fuel_of.
  by rewrite (findTile_spec _ _ _ _ Hr), first_hit_miss.
Qed.

Lemma merge_hit x y s l1 e l2 :
  repr s (l1 ++ e :: l2) → miss x y l1 → hits x y e →
  post (merge x y) s (λ _ s',
    ∃ p, repr s'
      ((p, box (foldl grow (start e.2) (filter (hits x y) (l1 ++ e :: l2)).*2)
               (Tile.color e.2))
       :: filter (λ e', ¬ hits x y e') (l1 ++ e :: l2))).
Proof.
  intros Hr H1 H2. unfold merge.
  apply post_bind, post_fuel_of.
  apply post_bind, (post_findTile _ _ _ _ _ Hr).
  pose proof (first_hit_split x y l1 e l2 H1 H2) as Hfh. rewrite Hfh.
  cbn [fmap option_fmap option_map].
  destruct (repr_lookup _ _ e Hr) as (n & Hn & Ht); [set_solver|].
  apply post_bind, (post_load _ _ n); [done|].
  apply post_bind.
  pose proof (merge_loop_spec x y (S (size (heap s))) s _ (start e.2) Hr) as Hl.
  rewrite Hfh in Hl. rewrite <- Ht in Hl at 1 2 3 4.
  eapply post_mono; [apply Hl; pose proof (repr_fuel _ _ Hr); lia|].
  intros [[[minX maxX] minY] maxY] s' [Hacc Hr'].
  eapply post_mono; [by apply addFront_spec|].
  intros [] s'' (p & _ & Hr''). exists p.
  rewrite <- Hacc. simpl. by rewrite <- Ht.
Qed.

Lemma clear_loop_spec fuel s p l :
  dll (heap s) p l None → front s = first_or None l →
  back s = last_or None l → NoDup l.*1 → (length l < fuel)%nat →
  post (clear_loop fuel) s (λ _ _, True).
Proof.
  revert s p l. induction fuel as [|fuel IH]; intros s p l Hd Hf Hb Hnd Hlen; [lia|].
  cbn [clear_loop].
  apply post_bind, post_getFront. apply post_bind, post_getBack.
  rewrite Hf, Hb.
  destruct l as [|e [|e' l]].
  - rewrite decide_False by naive_solver. by apply post_ret.
  - rewrite decide_False by naive_solver. by apply post_ret.
  - destruct (last_or_elem (e' :: l) (Some e.1)) as (a & Ha & Hin); [done|].
    rewrite last_or_cons, Ha. cbn [first_or].
    rewrite !fmap_cons in Hnd. apply NoDup_cons in Hnd as [He Hnd].
    rewrite decide_True by (intros [= Heq]; apply He; by rewrite Heq).
    apply dll_cons_inv in Hd as (n & Hn & _ & _ & Hq & Hd).
    apply post_bind, (post_deref _ _ e.1); [done|].
    apply post_bind, (post_load _ _ n); [done|].
    apply post_bind, post_setFront. proj.
    apply post_bind, (post_delete_node _ _ n); [done|]. proj.
    eapply (IH _ (Some e.1) (e' :: l)); proj.
    + by apply dll_delete_ne.
    + done.
    + rewrite Hb, last_or_cons. by apply last_or_nonempty.
    + done.
    + simpl in *. lia.
Qed.

Lemma clear_spec s l : repr s l → post clear s (λ _ s', repr s' []).
Proof.
  intros Hr. pose proof (repr_fuel _ _ Hr) as Hlen.
  destruct Hr as (Hd & Hf & Hb & Hnd). unfold clear.
  apply post_bind, post_fuel_of. apply post_bind.
  eapply post_mono; [eapply clear_loop_spec; try done; lia|].
  intros [] s' _. apply post_bind, post_setFront.
  apply post_setBack. repeat split; simpl. apply NoDup_nil_2.
Qed.

Lemma traverse_loop_spec fuel s p l :
  dll (heap s) p l None → (length l < fuel)%nat →
  traverse_loop fuel (first_or None l) s = Some (l.*1, s).
Proof.
  revert p l. induction fuel as [|fuel IH]; intros p l Hd Hlen; [lia|].
  destruct l as [|e l]; [done|].
  apply dll_cons_inv in Hd as (n & Hn & Ht & _ & Hnext & Hd).
  cbn [traverse_loop first_or].
  unfold mbind, M_bind, load. rewrite Hn, Hnext.
  erewrite IH; [done|done|]. simpl in Hlen. lia.
Qed.

Lemma traverse_spec s l : repr s l → traverse s = Some (l.*1, s).
Proof.
  intros Hr. pose proof (repr_fuel _ _ Hr) as Hlen.
  destruct Hr as (Hd & Hf & _).
  unfold traverse, mbind, M_bind, fuel_of, getFront. rewrite Hf.
  eapply traverse_loop_spec; [done|lia].
Qed.

(** ** The bounding box of [merge] *)

Lemma extremes_of_start t :
  in_int (right t) → in_int (bottom t) → extremes_of [t] (start t).
Proof.
  intros Hr Hb. unfold start, int_add. fold (right t) (bottom t).
  rewrite !wrap_id by done. unfold extremes_of.
  split_and!; try (exists t; split; [set_solver|done]).
  repeat constructor; lia.
Qed.

Lemma extremes_of_grow ts acc t :
  in_int (right t) → in_int (bottom t) →
  extremes_of ts acc → extremes_of (ts ++ [t]) (grow acc t).
Proof.
  intros Hr Hb. destruct acc as [[[minX maxX] minY] maxY].
  unfold grow, int_add. fold (right t) (bottom t).
  rewrite !wrap_id by done.
  intros ((t1 & Ht1 & H1) & (t2 & Ht2 & H2) & (t3 & Ht3 & H3) &
          (t4 & Ht4 & H4) & Hall).
  unfold extremes_of. split_and!.
  - destruct (Z.ltb_spec (Tile.x t) minX);
      [exists t|exists t1]; split; set_solver.
  - destruct (Z.gtb_spec (right t) maxX);
      [exists t|exists t2]; split; set_solver.
  - destruct (Z.ltb_spec (Tile.y t) minY);
      [exists t|exists t3]; split; set_solver.
  - destruct (Z.gtb_spec (bottom t) maxY);
      [exists t|exists t4]; split; set_solver.
  - apply Forall_app. split.
    + eapply Forall_impl; [exact Hall|]. simpl. intros t' ?.
      destruct (Z.ltb_spec (Tile.x t) minX), (Z.gtb_spec (right t) maxX),
        (Z.ltb_spec (Tile.y t) minY), (Z.gtb_spec (bottom t) maxY); lia.
    + repeat constructor;
      destruct (Z.ltb_spec (Tile.x t) minX), (Z.gtb_spec (right t) maxX),
        (Z.ltb_spec (Tile.y t) minY), (Z.gtb_spec (bottom t) maxY); lia.
Qed.

Lemma extremes_of_foldl ts seen acc :
  Forall (λ t, in_int (right t) ∧ in_int (bottom t)) ts →
  extremes_of seen acc → extremes_of (seen ++ ts) (foldl grow acc ts).
Proof.
  intros Hts. revert seen acc.
  induction Hts as [|t ts [Hr Hb] _ IH]; intros seen acc Hacc; simpl.
  { by rewrite app_nil_r. }
  rewrite cons_middle, (assoc_L (++)). apply IH. by apply extremes_of_grow.
Qed.

Lemma grow_start t : grow (start t) t = start t.
Proof.
  unfold grow, start. rewrite Z.ltb_irrefl.
  rewrite !Z.gtb_ltb, !Z.ltb_irrefl. done.
Qed.

Lemma box_bounding_box ts acc c :
  ts ≠ [] → fits ts → extremes_of ts acc → bounding_box (box acc c) ts.
Proof.
  intros Hne Hfits. destruct acc as [[[minX maxX] minY] maxY].
  intros ((t1 & Ht1 & H1) & (t2 & Ht2 & H2) & (t3 & Ht3 & H3) &
          (t4 & Ht4 & H4) & Hall).
  unfold box, int_sub.
  destruct (Hfits t2 t1 Ht2 Ht1) as (_ & _ & Hw & _).
  destruct (Hfits t4 t3 Ht4 Ht3) as (_ & _ & _ & Hh).
  rewrite H1, H2 in Hw. rewrite H3, H4 in Hh.
  rewrite !wrap_id by done.
  split.
  - eapply Forall_impl; [exact Hall|]. unfold inside, right, bottom. simpl.
    intros t ?. lia.
  - intros r' Hr'. rewrite Forall_forall in Hr'.
    pose proof (Hr' _ Ht1). pose proof (Hr' _ Ht2).
    pose proof (Hr' _ Ht3). pose proof (Hr' _ Ht4).
    unfold inside, right, bottom in *. simpl. lia.
Qed.

(** ** Well-formed links *)

Lemma dll_index h p l q i e :
  dll h p l q → l !! i = Some e →
  ∃ n, h !! e.1 = Some n ∧
       TileNode.next n = from_option Some q (l.*1 !! S i) ∧
       TileNode.prev n = match i with O => p | S j => l.*1 !! j end.
Proof.
  revert p i. induction l as [|e0 l IH]; intros p i Hd Hi; [done|].
  apply dll_cons_inv in Hd as (n & Hn & _ & Hp & Hq & Hd).
  destruct i as [|i].
  - injection Hi as <-. exists n. split_and!; [done| |done].
    rewrite Hq. by destruct l.
  - destruct (IH (Some e0.1) i Hd Hi) as (n' & Hn' & Hq' & Hp').
    exists n'. split_and!; [done|done|].
    rewrite Hp'. by destruct i.
Qed.

Lemma repr_well_formed s l : repr s l → well_formed s.
Proof.
  intros (Hd & Hf & Hb & Hnd).
  assert (∀ i a, l.*1 !! i = Some a →
            ∃ n, heap s !! a = Some n ∧
                 TileNode.next n = l.*1 !! S i ∧
                 TileNode.prev n = match i with O => None | S j => l.*1 !! j end)
    as Hidx.
  { intros i a Hi. apply list_lookup_fmap_Some in Hi as (e & -> & He).
    destruct (dll_index _ _ _ _ _ _ Hd He) as (n & Hn & Hq & Hp).
    exists n. split_and!; [done| |done]. rewrite Hq. by destruct (_ !! S i). }
  split.
  - rewrite Hf, Hb.
    destruct (dll_snoc_case l) as [->|(l' & e & ->)]; [done|].
    rewrite last_or_snoc. by destruct l'.
  - exists l.*1. split_and!.
    + done.
    + split_and!.
      * rewrite Hf, first_or_fst. by destruct (head _).
      * rewrite Hb, last_or_fst. by destruct (last _).
      * intros i a Hi. destruct (Hidx i a Hi) as (n & Hn & Hq & _).
        unfold next_of. rewrite Hn. eauto.
    + intros a b [i Hi]%list_elem_of_lookup [j Hj]%list_elem_of_lookup.
      destruct (Hidx i a Hi) as (na & Hna & Hqa & _).
      destruct (Hidx j b Hj) as (nb & Hnb & _ & Hpb).
      unfold next_of, prev_of. rewrite Hna, Hnb. simpl. rewrite Hqa, Hpb.
      split.
      * intros Hsi. assert (j = S i) as -> by eauto using NoDup_lookup. done.
      * destruct j as [|j]; [done|]. intros Hj'.
        assert (j = i) as -> by eauto using NoDup_lookup. done.
    + intros a Ha. rewrite Hf, first_or_fst in Ha.
      assert (l.*1 !! 0%nat = Some a) as Hi.
      { destruct l.*1; simpl in *; [done|]. by injection Ha as ->. }
      destruct (Hidx _ _ Hi) as (n & Hn & _ & Hp).
      unfold prev_of. by rewrite Hn.
    + intros a Ha. rewrite Hb, last_or_fst in Ha.
      assert (l.*1 !! pred (length l.*1) = Some a) as Hi.
      { rewrite <- last_lookup. by destruct (last _). }
      destruct (Hidx _ _ Hi) as (n & Hn & Hq & _).
      unfold next_of. rewrite Hn. simpl. rewrite Hq.
      apply lookup_ge_None. lia.
Qed.

Lemma run_repr c s l :
  repr s l → post (run c) s (λ _ s', ∃ l', repr s' l').
Proof.
  intros Hr. destruct c as [x y w h c|x y w h c|x y|x y|x y|x y|x y|x y|];
    cbn [run].
  - eapply post_mono; [by apply addFront_spec|]. intros [] s' (p & _ & ?). eauto.
  - eapply post_mono; [by apply addBack_spec|]. intros [] s' (p & _ & ?). eauto.
  - apply post_bind.
    destruct (first_hit_cases x y l) as [[Hm _]|(l1 & e & l2 & -> & H1 & H2 & _)].
    + eapply post_eq; [exact (highlight_miss x y s l Hr Hm)|]. apply post_ret. eauto.
    + eapply post_mono; [exact (highlight_hit x y s l1 e l2 Hr H1 H2)|].
      intros b s' [_ ?]. apply post_ret. eauto.
  - apply post_bind.
    destruct (first_hit_cases x y l) as [[Hm _]|(l1 & e & l2 & -> & H1 & H2 & _)].
    + eapply post_eq; [exact (raise_miss x y s l Hr Hm)|]. apply post_ret. eauto.
    + destruct l1 as [|e1 l1].
      * eapply post_eq; [exact (raise_front x y s e l2 Hr H2)|]. apply post_ret. eauto.
      * eapply post_mono; [by apply (raise_hit x y s (e1 :: l1) e l2 Hr)|].
        intros b s' [_ ?]. apply post_ret. eauto.
  - apply post_bind.
    destruct (first_hit_cases x y l) as [[Hm _]|(l1 & e & l2 & -> & H1 & H2 & _)].
    + eapply post_eq; [exact (lower_miss x y s l Hr Hm)|]. apply post_ret. eauto.
    + destruct l2 as [|e2 l2].
      * eapply post_eq; [exact (lower_back x y s l1 e Hr H1 H2)|]. apply post_ret. eauto.
      * eapply post_mono; [by apply (lower_hit x y s l1 e (e2 :: l2) Hr)|].
        intros b s' [_ ?]. apply post_ret. eauto.
  - apply post_bind.
    destruct (first_hit_cases x y l) as [[Hm _]|(l1 & e & l2 & -> & H1 & H2 & _)].
    + eapply post_eq; [exact (remove_miss x y s l Hr Hm)|]. apply post_ret. eauto.
    + eapply post_mono; [exact (remove_hit x y s l1 e l2 Hr H1 H2)|].
      intros b s' [_ ?]. apply post_ret. eauto.
  - apply post_bind. eapply post_mono; [by apply removeAll_spec|].
    intros r s' [_ ?]. apply post_ret. eauto.
  - destruct (first_hit_cases x y l) as [[Hm _]|(l1 & e & l2 & -> & H1 & H2 & _)].
    + eapply post_eq; [exact (merge_miss x y s l Hr Hm)|]. eauto.
    + eapply post_mono; [exact (merge_hit x y s l1 e l2 Hr H1 H2)|]. intros [] s' (p & ?). eauto.
  - eapply post_mono; [exact (clear_spec s l Hr)|]. intros [] s' ?. eauto.
Qed.

Lemma run_all_repr cs s l :
  repr s l → post (run_all cs) s (λ _ s', ∃ l', repr s' l').
Proof.
  revert s l. induction cs as [|c cs IH]; intros s l Hr; cbn [run_all].
  - apply post_ret. eauto.
  - apply post_bind. eapply post_mono; [by eapply run_repr|].
    intros [] s' (l' & Hr'). by eapply IH.
Qed.

(** ** Relative order *)

Lemma others_id m l : m ∉ l.*1 → others m l = l.
Proof.
  induction l as [|e l IH]; [done|]. rewrite fmap_cons, not_elem_of_cons.
  intros [Hne Hm]. unfold others in *.
  rewrite filter_cons_True by done. by rewrite IH.
Qed.

Lemma others_middle l1 e l2 :
  NoDup (l1 ++ e :: l2).*1 → others e.1 (l1 ++ e :: l2) = l1 ++ l2.
Proof.
  intros (H1 & H2 & _)%NoDup_middle. unfold others.
  rewrite filter_app, filter_cons_False by naive_solver.
  fold (others e.1 l1) (others e.1 l2). by rewrite !others_id.
Qed.

Lemma neighbours_others m a b l :
  a.1 ≠ m → b.1 ≠ m → neighbours a b l → neighbours a b (others m l).
Proof.
  intros Ha Hb (k1 & k2 & ->). exists (others m k1), (others m k2).
  unfold others. rewrite filter_app.
  by rewrite !filter_cons_True by done.
Qed.

Lemma neighbours_cons a b e l : neighbours a b l → neighbours a b (e :: l).
Proof. intros (k1 & k2 & ->). by exists (e :: k1), k2. Qed.

Lemma neighbours_snoc a b e l : neighbours a b l → neighbours a b (l ++ [e]).
Proof.
  intros (k1 & k2 & ->). exists k1, (k2 ++ [e]). by rewrite <- app_assoc.
Qed.

Lemma kept_intro m l l' :
  others m l' = others m l →
  (∀ a b, neighbours a b (others m l) → neighbours a b l') →
  kept (Some m) l l'.
Proof.
  intros Heq Hn. split; [done|]. intros a b Ha Hb. split; [|split].
  - intros Hab. by apply Hn, neighbours_others.
  - intros Hab. rewrite <- Heq. by apply neighbours_others.
  - apply Hn.
Qed.

Lemma kept_raise l1 e l2 :
  NoDup (l1 ++ e :: l2).*1 →
  kept (Some e.1) (l1 ++ e :: l2) (e :: l1 ++ l2).
Proof.
  intros Hnd. pose proof Hnd as (H1 & H2 & _)%NoDup_middle.
  apply kept_intro; rewrite others_middle by done.
  - unfold others. rewrite filter_cons_False by naive_solver.
    apply others_id. rewrite fmap_app. set_solver.
  - intros a b. apply neighbours_cons.
Qed.

Lemma kept_lower l1 e l2 :
  NoDup (l1 ++ e :: l2).*1 →
  kept (Some e.1) (l1 ++ e :: l2) (l1 ++ l2 ++ [e]).
Proof.
  intros Hnd. pose proof Hnd as (H1 & H2 & _)%NoDup_middle.
  apply kept_intro; rewrite others_middle by done.
  - unfold others. rewrite !filter_app, filter_cons_False by naive_solver.
    fold (others e.1 l1) (others e.1 l2). rewrite !others_id by done.
    by rewrite filter_nil, app_nil_r.
  - intros a b. rewrite (assoc_L (++)). apply neighbours_snoc.
Qed.

Lemma kept_remove l1 e l2 :
  NoDup (l1 ++ e :: l2).*1 →
  kept (Some e.1) (l1 ++ e :: l2) (l1 ++ l2).
Proof.
  intros Hnd. pose proof Hnd as (H1 & H2 & _)%NoDup_middle.
  apply kept_intro; rewrite others_middle by done.
  - apply others_id. rewrite fmap_app. set_solver.
  - done.
Qed.

(** What a caller observes after a call that ended in [s'] with list [l']:
    the traversal from the front visits the nodes of [l'], each once. *)
Lemma traverse_once s' l' :
  repr s' l' → traverse s' = Some (l'.*1, s') ∧ NoDup l'.*1.
Proof. intros Hr. split; [by apply traverse_spec|by eapply repr_NoDup]. Qed.

(** * The claims *)

(** The sample lists are states of the class: calls from the empty list
    build them. *)
Lemma one_tile_built :
  addFront 0 0 10 10 "red" TileList_new = Some (tt, one_tile).
Proof. by vm_compute. Qed.

Lemma two_tiles_built :
  (addBack 0 0 10 10 "red";; addBack 5 5 10 10 "blue") TileList_new =
    Some (tt, two_tiles).
Proof. by vm_compute. Qed.

Lemma three_tiles_built :
  (addBack 0 0 10 10 "red";; addBack 5 5 10 10 "blue";;
   addBack 2 2 20 20 "green") TileList_new = Some (tt, three_tiles).
Proof. by vm_compute. Qed.

Lemma repr_new : repr TileList_new [].
Proof. apply (bool_decide_unpack _). vm_compute. reflexivity. Defined.

Lemma repr_one_tile : repr one_tile [(1%positive, red)].
Proof. apply (bool_decide_unpack _). vm_compute. reflexivity. Defined.

Lemma repr_two_tiles : repr two_tiles [(1%positive, red); (2%positive, blue)].
Proof. apply (bool_decide_unpack _). vm_compute. reflexivity. Defined.

Lemma repr_three_tiles :
  repr three_tiles [(1%positive, red); (2%positive, blue); (3%positive, green)].
Proof. apply (bool_decide_unpack _). vm_compute. reflexivity. Defined.

(** C1: on a list [l], [findTile x y] returns the first node, front to
    back, whose tile contains [(x,y)] (every node in front of it misses the
    point), returns null when no tile contains the point, and leaves the
    list as it is. *)
Theorem findTile_first_match (s : TileList) (l : list entry) (x y : Z) :
  repr s l →
  ∃ r, findTile x y s = Some (r, s) ∧
    match r with
    | Some a =>
      ∃ l1 t l2, l = l1 ++ (a, t) :: l2 ∧ miss x y l1 ∧
                 Tile.contains t x y = true
    | None => miss x y l
    end.
Proof.
  intros Hr. exists (fst <$> first_hit x y l).
  split; [by apply findTile_spec|].
  destruct (first_hit_cases x y l) as [[Hm ->]|(l1 & e & l2 & -> & H1 & H2 & ->)].
  - done.
  - exists l1, e.2, l2. by rewrite <- surjective_pairing.
Qed.

Lemma findTile_first_match_witness :
  ∃ r, findTile 6 6 three_tiles = Some (r, three_tiles) ∧
    match r with
    | Some a =>
      ∃ l1 t l2,
        [(1%positive, red); (2%positive, blue); (3%positive, green)] =
          l1 ++ (a, t) :: l2 ∧ miss 6 6 l1 ∧ Tile.contains t 6 6 = true
    | None =>
      miss 6 6 [(1%positive, red); (2%positive, blue); (3%positive, green)]
    end.
Proof. apply (findTile_first_match _ _ 6 6 repr_three_tiles). Defined.

(** C2: [raise x y] returns false and changes nothing when no tile contains
    [(x,y)] or when the first tile that does is the front one; otherwise it
    moves that node to the front and returns true.  [lower x y] does the
    same with the back. *)
Theorem raise_lower_boundary (s : TileList) (l : list entry) (x y : Z) :
  repr s l →
  (miss x y l → raise x y s = Some (false, s)) ∧
  (∀ e l2, l = e :: l2 → hits x y e → raise x y s = Some (false, s)) ∧
  (∀ l1 e l2, l = l1 ++ e :: l2 → l1 ≠ [] → miss x y l1 → hits x y e →
     ∃ s', raise x y s = Some (true, s') ∧ repr s' (e :: l1 ++ l2)) ∧
  (miss x y l → lower x y s = Some (false, s)) ∧
  (∀ l1 e, l = l1 ++ [e] → miss x y l1 → hits x y e →
     lower x y s = Some (false, s)) ∧
  (∀ l1 e l2, l = l1 ++ e :: l2 → l2 ≠ [] → miss x y l1 → hits x y e →
     ∃ s', lower x y s = Some (true, s') ∧ repr s' (l1 ++ l2 ++ [e])).
Proof.
  intros Hr. split_and!.
  - by eapply raise_miss.
  - intros e l2 -> He. by eapply raise_front.
  - intros l1 e l2 -> Hne H1 H2.
    destruct (raise_hit x y s l1 e l2) as (b & s' & Heq & -> & Hr'); eauto.
  - by eapply lower_miss.
  - intros l1 e -> H1 He. by eapply lower_back.
  - intros l1 e l2 -> Hne H1 H2.
    destruct (lower_hit x y s l1 e l2) as (b & s' & Heq & -> & Hr'); eauto.
Qed.

Lemma raise_lower_boundary_witness :
  repr three_tiles [(1%positive, red); (2%positive, blue); (3%positive, green)] ∧
  (∃ s', raise 12 12 three_tiles = Some (true, s') ∧
         repr s' [(2%positive, blue); (1%positive, red); (3%positive, green)]) ∧
  lower 21 21 three_tiles = Some (false, three_tiles).
Proof.
  split; [exact repr_three_tiles|].
  destruct (raise_lower_boundary _ _ 12 12 repr_three_tiles)
    as (_ & _ & Hraise & _).
  destruct (raise_lower_boundary _ _ 21 21 repr_three_tiles)
    as (_ & _ & _ & _ & Hlower & _).
  split.
  - apply (Hraise [(1%positive, red)] (2%positive, blue) [(3%positive, green)]);
      [done|done| |done].
    repeat constructor. vm_compute. congruence.
  - apply (Hlower [(1%positive, red); (2%positive, blue)] (3%positive, green));
      [done| |done].
    repeat constructor; vm_compute; congruence.
Defined.

(** C3, as the code has it: [raise x y] returns true exactly when some tile
    contains [(x,y)] and the first such tile is not already the front one. *)
Theorem raise_true_iff_moved (s : TileList) (l : list entry) (x y : Z) :
  repr s l →
  ∃ b s', raise x y s = Some (b, s') ∧
    (b = true ↔
     ∃ l1 e l2, l = l1 ++ e :: l2 ∧ l1 ≠ [] ∧ miss x y l1 ∧ hits x y e).
Proof.
  intros Hr.
  destruct (first_hit_cases x y l) as [[Hm _]|(l1 & e & l2 & -> & H1 & H2 & _)].
  - exists false, s. split; [by eapply raise_miss|]. split; [done|].
    intros (l1 & e & l2 & -> & _ & _ & He).
    apply Forall_app in Hm as [_ Hm]. apply Forall_cons in Hm as [Hm _]. done.
  - destruct l1 as [|e1 l1].
    + exists false, s. split; [by eapply raise_front|]. split; [done|].
      intros (l1 & e' & l2' & Heq & Hne & Hm & He).
      destruct l1 as [|e1 l1]; [done|]. simpl in Heq. injection Heq as <- _.
      apply Forall_cons in Hm as [Hm _]. done.
    + destruct (raise_hit x y s (e1 :: l1) e l2) as (b & s' & Heq & -> & Hr');
        try done.
      exists true, s'. split; [done|]. split; [|done].
      intros _. by exists (e1 :: l1), e, l2.
Qed.

Lemma raise_true_iff_moved_witness :
  ∃ b s', raise 12 12 three_tiles = Some (b, s') ∧
    (b = true ↔
     ∃ l1 e l2,
       [(1%positive, red); (2%positive, blue); (3%positive, green)] =
         l1 ++ e :: l2 ∧ l1 ≠ [] ∧ miss 12 12 l1 ∧ hits 12 12 e).
Proof. apply (raise_true_iff_moved _ _ 12 12 repr_three_tiles). Defined.

(** C3, as stated, fails: the only tile of [one_tile] contains [(5,5)], it
    is the front tile, and [raise 5 5] returns false. *)
Lemma raise_front_hit_returns_false :
  repr one_tile [(1%positive, red)] ∧ hits 5 5 (1%positive, red) ∧
  raise 5 5 one_tile = Some (false, one_tile).
Proof. split_and!; [exact repr_one_tile|done|by vm_compute]. Qed.

(** C4, as the code has it: when the first tile that contains [(x,y)] is
    [e], [merge x y] removes every node whose tile contains the point and
    links one new node at the front, which holds the colour of [e] and the
    extremes the loop has accumulated over the removed tiles; provided the
    edges and extents of the removed tiles are values of [int], its
    rectangle is the least rectangle that covers the full rectangles of the
    removed tiles.
    Merging [red = (0,0,10,10)] and [blue = (5,5,10,10)] at [(6,6)] leaves
    the single tile [(0,0,15,15,"red")]. *)
Theorem merge_bounding_box (s : TileList) (l : list entry) (x y : Z)
    (e : entry) :
  repr s l → first_hit x y l = Some e →
  (∃ s' p r,
     merge x y s = Some (tt, s') ∧
     repr s' ((p, r) :: filter (λ e', ¬ hits x y e') l) ∧
     r = box (foldl grow (start e.2) (filter (hits x y) l).*2)
             (Tile.color e.2) ∧
     Tile.color r = Tile.color e.2 ∧
     (fits (filter (hits x y) l).*2 →
      bounding_box r (filter (hits x y) l).*2)) ∧
  (∃ s' p,
     (addBack 0 0 10 10 "red";; addBack 5 5 10 10 "blue";; merge 6 6)
       TileList_new = Some (tt, s') ∧
     repr s' [(p, Tile.mk 0 0 15 15 "red")]).
Proof.
  intros Hr Hfh. split.
  - apply first_hit_Some in Hfh as (l1 & l2 & -> & H1 & H2).
    destruct (merge_hit x y s l1 e l2 Hr H1 H2) as ([] & s' & Heq & p & Hr').
    eexists s', p, _. split_and!; [done|exact Hr'|done| |].
    + by destruct (foldl _ _ _) as [[[? ?] ?] ?].
    + intros Hfits.
      destruct (filter_hits_split x y l1 e l2 H1 H2) as [Hf _].
      rewrite Hf in *. rewrite fmap_cons in *.
      assert (in_int (right e.2) ∧ in_int (bottom e.2)) as [He1 He2].
      { destruct (Hfits e.2 e.2) as (? & ? & _); [set_solver..|done]. }
      apply box_bounding_box; [done|done|].
      cbn [foldl]. rewrite grow_start.
      apply (extremes_of_foldl _ [e.2]); [|by apply extremes_of_start].
      apply Forall_forall. intros t Ht.
      destruct (Hfits t t) as (? & ? & _); [set_solver..|done].
  - exists (mkTileList {[ 1%positive := TileNode.mk 0 0 15 15 "red" None None ]}
              (Some 1%positive) (Some 1%positive)), 1%positive.
    split; [by vm_compute|]. apply (bool_decide_unpack _). by vm_compute.
Qed.

Lemma merge_bounding_box_witness :
  repr three_tiles [(1%positive, red); (2%positive, blue); (3%positive, green)] ∧
  ∃ s' p r,
    merge 12 12 three_tiles = Some (tt, s') ∧
    repr s' [(p, r); (1%positive, red)] ∧
    Tile.color r = "blue" ∧
    bounding_box r [blue; green].
Proof.
  split; [exact repr_three_tiles|].
  destruct (proj1 (merge_bounding_box _ _ 12 12 (2%positive, blue)
                     repr_three_tiles eq_refl))
    as (s' & p & r & Heq & Hr' & _ & Hc & Hbox).
  exists s', p, r. split_and!; [done|exact Hr'|exact Hc|].
  apply Hbox. intros t t' Ht Ht'.
  apply list_elem_of_In in Ht, Ht'.
  vm_compute in Ht, Ht'.
  destruct Ht as [<-|[<-|[]]], Ht' as [<-|[<-|[]]]; vm_compute; intuition congruence.
Defined.

(** C4, as stated, fails: [wide_a] and [wide_b] hold values of [int], so do
    their edges, and both contain [(0,0)]; [merge 0 0] removes both and
    computes [maxX - minX] where the exact difference is 4000000000, which
    is no value of [int]: the tile it adds has the width -294967296 and
    does not cover [wide_b], so it is not the bounding box of the removed
    tiles. *)
Lemma merge_overflow_not_bounding_box :
  (addBack (-2000000000) 0 2000000001 10 "a";;
   addBack 0 0 2000000000 10 "b") TileList_new = Some (tt, wide_tiles) ∧
  repr wide_tiles [(1%positive, wide_a); (2%positive, wide_b)] ∧
  Forall (λ t, in_int (Tile.x t) ∧ in_int (Tile.y t) ∧
               in_int (Tile.width t) ∧ in_int (Tile.height t) ∧
               in_int (right t) ∧ in_int (bottom t) ∧
               Tile.contains t 0 0 = true) [wide_a; wide_b] ∧
  merge 0 0 wide_tiles =
    Some (tt, mkTileList
       {[ 1%positive :=
            TileNode.mk (-2000000000) 0 (-294967296) 10 "a" None None ]}
       (Some 1%positive) (Some 1%positive)) ∧
  ¬ inside wide_b (Tile.mk (-2000000000) 0 (-294967296) 10 "a") ∧
  ¬ bounding_box (Tile.mk (-2000000000) 0 (-294967296) 10 "a")
      [wide_a; wide_b].
Proof.
  assert (¬ inside wide_b (Tile.mk (-2000000000) 0 (-294967296) 10 "a"))
    as Hout.
  { unfold inside, right, bottom, wide_b. simpl. lia. }
  split_and!.
  - by vm_compute.
  - apply (bool_decide_unpack _). by vm_compute.
  - repeat constructor; vm_compute; congruence.
  - by vm_compute.
  - exact Hout.
  - intros [Hall _]. apply Forall_cons in Hall as [_ Hall].
    apply Forall_cons in Hall as [Hb _]. by apply Hout.
Qed.

(** C5: [removeAll x y] removes exactly the nodes whose tile contains
    [(x,y)], wherever they are in the list: what is left is the list with
    those nodes filtered out, in the same order, and no tile of it contains
    the point.  The result is their number (as an [int]: the number itself
    as long as it does not exceed [INT_MAX]).  On three stacked tiles that
    all contain the point it returns 3 and leaves the empty list. *)
Theorem removeAll_drains (s : TileList) (l : list entry) (x y : Z) :
  repr s l →
  (∃ r s',
     removeAll x y s = Some (r, s') ∧
     repr s' (filter (λ e, ¬ hits x y e) l) ∧
     miss x y (filter (λ e, ¬ hits x y e) l) ∧
     r = wrap (Z.of_nat (length (filter (hits x y) l))) ∧
     (Z.of_nat (length (filter (hits x y) l)) ≤ INT_MAX →
      r = Z.of_nat (length (filter (hits x y) l)))) ∧
  Forall (hits 6 6) [(1%positive, red); (2%positive, blue); (3%positive, green)] ∧
  removeAll 6 6 three_tiles = Some (3, TileList_new).
Proof.
  intros Hr. split; [|split; [by repeat constructor|by vm_compute]].
  destruct (removeAll_spec x y s l Hr) as (r & s' & Heq & -> & Hr').
  eexists _, s'. split_and!; try done.
  - apply Forall_forall. by intros e [? _]%list_elem_of_filter.
  - intros Hle. apply wrap_id. unfold in_int, INT_MIN. lia.
Qed.

Lemma removeAll_drains_witness :
  ∃ r s',
    removeAll 7 7 three_tiles = Some (r, s') ∧
    repr s' [] ∧ r = 3.
Proof.
  destruct (removeAll_drains _ _ 7 7 repr_three_tiles)
    as ((r & s' & Heq & Hr' & _ & _ & Hr) & _).
  exists r, s'. split_and!; [done|exact Hr'|].
  apply Hr. vm_compute. congruence.
Defined.

(** C6: when no tile contains the point, and so on the empty list,
    [findTile] returns null, [highlight], [raise], [lower] and [remove]
    return false, [removeAll] returns 0 and [merge] returns; none of them
    faults and each leaves the state exactly as it was. *)
Theorem miss_changes_nothing (s : TileList) (l : list entry) (x y : Z) :
  repr s l → miss x y l →
  findTile x y s = Some (None, s) ∧
  highlight x y s = Some (false, s) ∧
  raise x y s = Some (false, s) ∧
  lower x y s = Some (false, s) ∧
  remove x y s = Some (false, s) ∧
  removeAll x y s = Some (0, s) ∧
  merge x y s = Some (tt, s).
Proof.
  intros Hr Hm.
  assert (findTile x y s = Some (None, s)) as Hfind.
  { by rewrite (findTile_spec _ _ _ _ Hr), first_hit_miss. }
  split_and!.
  - done.
  - by eapply highlight_miss.
  - by eapply raise_miss.
  - by eapply lower_miss.
  - by eapply remove_miss.
  - unfold removeAll, mbind, M_bind, fuel_of. by rewrite Hfind.
  - by eapply merge_miss.
Qed.

Lemma miss_changes_nothing_witness :
  (repr TileList_new [] ∧ miss 3 4 []) ∧
  findTile 3 4 TileList_new = Some (None, TileList_new) ∧
  highlight 3 4 TileList_new = Some (false, TileList_new) ∧
  raise 3 4 TileList_new = Some (false, TileList_new) ∧
  lower 3 4 TileList_new = Some (false, TileList_new) ∧
  remove 3 4 TileList_new = Some (false, TileList_new) ∧
  removeAll 3 4 TileList_new = Some (0, TileList_new) ∧
  merge 3 4 TileList_new = Some (tt, TileList_new).
Proof.
  split; [split; [exact repr_new|constructor]|].
  apply (miss_changes_nothing TileList_new [] 3 4 repr_new). constructor.
Defined.

(** C7: from the empty list, every sequence of calls of the public member
    functions ends without a fault in a state [s] with well-formed links,
    and any further call [c] ends in a state [s'] with well-formed links:
    [front] is null iff [back] is, following [next] from [front] visits a
    duplicate-free path that ends at [back], [next] and [prev] are inverse
    on the nodes of the path, the front node has no [prev] and the back
    node no [next]. *)
Theorem calls_preserve_well_formed (cs : list call) (c : call) :
  ∃ s s',
    run_all cs TileList_new = Some (tt, s) ∧ well_formed s ∧
    run c s = Some (tt, s') ∧ well_formed s'.
Proof.
  destruct (run_all_repr cs _ _ repr_new) as ([] & s & Hs & l & Hr).
  destruct (run_repr c _ _ Hr) as ([] & s' & Hs' & l' & Hr').
  exists s, s'. split_and!; [done| |done|]; by eapply repr_well_formed.
Qed.

(** C8: on a list [l] whose first node that contains [(x,y)] is [m] (if
    any), [raise], [lower] and [remove] end in a list [l'] that, apart from
    [m], has the same nodes in the same order as [l], and in which two
    neighbours of [l] other than [m] are still neighbours.  After [raise]
    and [lower] the nodes are those of [l]; after [remove] they are those
    of [l] other than [m].  The traversal from the front then visits the
    nodes of [l'], each exactly once. *)
Theorem moves_keep_relative_order (s : TileList) (l : list entry) (x y : Z) :
  repr s l →
  let m := fst <$> first_hit x y l in
  (∃ b s' l',
     raise x y s = Some (b, s') ∧ repr s' l' ∧
     traverse s' = Some (l'.*1, s') ∧ NoDup l'.*1 ∧
     l' ≡ₚ l ∧ kept m l l') ∧
  (∃ b s' l',
     lower x y s = Some (b, s') ∧ repr s' l' ∧
     traverse s' = Some (l'.*1, s') ∧ NoDup l'.*1 ∧
     l' ≡ₚ l ∧ kept m l l') ∧
  (∃ b s' l',
     remove x y s = Some (b, s') ∧ repr s' l' ∧
     traverse s' = Some (l'.*1, s') ∧ NoDup l'.*1 ∧
     l' = from_option (λ m, others m l) l m ∧ kept m l l').
Proof.
  intros Hr m. pose proof (repr_NoDup _ _ Hr) as Hnd.
  assert (∀ s' l', repr s' l' →
            repr s' l' ∧ traverse s' = Some (l'.*1, s') ∧ NoDup l'.*1) as Hobs.
  { intros s' l' Hr'. split; [done|]. by apply traverse_once. }
  destruct (first_hit_cases x y l)
    as [[Hm Hfh]|(l1 & e & l2 & -> & H1 & H2 & Hfh)];
    subst m; rewrite Hfh; cbn [fmap option_fmap option_map from_option].
  - split_and!; exists false, s, l.
    + rewrite (raise_miss x y s l Hr Hm).
      destruct (Hobs s l Hr) as (? & ? & ?). by split_and!.
    + rewrite (lower_miss x y s l Hr Hm).
      destruct (Hobs s l Hr) as (? & ? & ?). by split_and!.
    + rewrite (remove_miss x y s l Hr Hm).
      destruct (Hobs s l Hr) as (? & ? & ?). by split_and!.
  - split_and!.
    + destruct l1 as [|e1 l1].
      * exists false, s, (e :: l2).
        rewrite (raise_front x y s e l2 Hr H2).
        destruct (Hobs s _ Hr) as (? & ? & ?). split_and!; try done.
        by apply (kept_raise [] e l2).
      * destruct (raise_hit x y s (e1 :: l1) e l2 Hr) as (b & s' & Heq & -> & Hr');
          try done.
        exists true, s', (e :: (e1 :: l1) ++ l2).
        destruct (Hobs s' _ Hr') as (? & ? & ?). split_and!; try done.
        -- apply Permutation_middle.
        -- by apply kept_raise.
    + destruct l2 as [|e2 l2].
      * exists false, s, (l1 ++ [e]).
        rewrite (lower_back x y s l1 e Hr H1 H2).
        destruct (Hobs s _ Hr) as (? & ? & ?). split_and!; try done.
        by apply (kept_lower l1 e []).
      * destruct (lower_hit x y s l1 e (e2 :: l2) Hr) as (b & s' & Heq & -> & Hr');
          try done.
        exists true, s', (l1 ++ (e2 :: l2) ++ [e]).
        destruct (Hobs s' _ Hr') as (? & ? & ?). split_and!; try done.
        -- apply Permutation_app_head. symmetry. apply Permutation_cons_append.
        -- by apply kept_lower.
    + destruct (remove_hit x y s l1 e l2 Hr H1 H2) as (b & s' & Heq & -> & Hr').
      exists true, s', (l1 ++ l2).
      destruct (Hobs s' _ Hr') as (? & ? & ?). split_and!; try done.
      * by rewrite others_middle.
      * by apply kept_remove.
Qed.

Lemma moves_keep_relative_order_witness :
  repr three_tiles [(1%positive, red); (2%positive, blue); (3%positive, green)] ∧
  ∃ b s' l',
    lower 1 1 three_tiles = Some (b, s') ∧ repr s' l' ∧
    traverse s' = Some (l'.*1, s') ∧ NoDup l'.*1 ∧
    l' ≡ₚ [(1%positive, red); (2%positive, blue); (3%positive, green)] ∧
    kept (Some 1%positive)
      [(1%positive, red); (2%positive, blue); (3%positive, green)] l'.
Proof.
  split; [exact repr_three_tiles|].
  exact (proj1 (proj2 (moves_keep_relative_order _ _ 1 1 repr_three_tiles))).
Defined.

(** C9: on any list, [addFront] and [addBack] do not fault; each links
    exactly one new node at its end, holding exactly the five values
    passed, whatever their sign, and the list is one longer. *)
Theorem add_never_fails (s : TileList) (l : list entry)
    (x y width height : Z) (color : string) :
  repr s l →
  (∃ s' p l',
     addFront x y width height color s = Some (tt, s') ∧ repr s' l' ∧
     l' = (p, Tile.mk x y width height color) :: l ∧ (p ∉ l.*1) ∧
     length l' = S (length l)) ∧
  (∃ s' p l',
     addBack x y width height color s = Some (tt, s') ∧ repr s' l' ∧
     l' = l ++ [(p, Tile.mk x y width height color)] ∧ (p ∉ l.*1) ∧
     length l' = S (length l)).
Proof.
  intros Hr. split.
  - destruct (addFront_spec s l x y width height color Hr)
      as ([] & s' & Heq & p & Hp & Hr').
    exists s', p, ((p, Tile.mk x y width height color) :: l). by split_and!.
  - destruct (addBack_spec s l x y width height color Hr)
      as ([] & s' & Heq & p & Hp & Hr').
    exists s', p, (l ++ [(p, Tile.mk x y width height color)]).
    split_and!; try done. rewrite length_app. simpl. lia.
Qed.

Lemma add_never_fails_witness :
  repr one_tile [(1%positive, red)] ∧
  ∃ s' p,
    addBack 3 4 (-5) 0 "none" one_tile = Some (tt, s') ∧
    repr s' [(1%positive, red); (p, Tile.mk 3 4 (-5) 0 "none")].
Proof.
  split; [exact repr_one_tile|].
  destruct (add_never_fails one_tile _ 3 4 (-5) 0 "none" repr_one_tile)
    as (_ & s' & p & l' & Heq & Hr' & -> & _).
  by exists s', p.
Defined.

(** C10: when some tile contains [(x,y)], [highlight x y] returns true and
    the list is the same nodes in the same order, the first one that
    contains the point now having the colour "yellow" and its geometry
    as before; when none does, it returns false and changes nothing. *)
Theorem highlight_first_match (s : TileList) (l : list entry) (x y : Z) :
  repr s l →
  (miss x y l → highlight x y s = Some (false, s)) ∧
  (∀ l1 e l2, l = l1 ++ e :: l2 → miss x y l1 → hits x y e →
     ∃ s', highlight x y s = Some (true, s') ∧
       repr s'
         (l1 ++
          (e.1, Tile.mk (Tile.x e.2) (Tile.y e.2) (Tile.width e.2)
                        (Tile.height e.2) "yellow") :: l2)).
Proof.
  intros Hr. split.
  - by eapply highlight_miss.
  - intros l1 e l2 -> H1 H2.
    destruct (highlight_hit x y s l1 e l2) as (b & s' & Heq & -> & Hr'); eauto.
Qed.

Lemma highlight_first_match_witness :
  repr two_tiles [(1%positive, red); (2%positive, blue)] ∧
  ∃ s', highlight 12 12 two_tiles = Some (true, s') ∧
        repr s' [(1%positive, red); (2%positive, Tile.mk 5 5 10 10 "yellow")].
Proof.
  split; [exact repr_two_tiles|].
  destruct (highlight_first_match _ _ 12 12 repr_two_tiles) as [_ H].
  apply (H [(1%positive, red)] (2%positive, blue) []); [done| |done].
  repeat constructor. vm_compute. congruence.
Defined.

(** * Further properties of the member functions *)

(** ** [clear] and the destructor *)

Lemma clear_loop_heap fuel s p l e :
  dll (heap s) p (l ++ [e]) None → front s = first_or None (l ++ [e]) →
  back s = Some e.1 → NoDup (l ++ [e]).*1 → (length l < fuel)%nat →
  post (clear_loop fuel) s (λ _ s',
    ∀ a, heap s' !! a = if decide (a ∈ l.*1) then None else heap s !! a).
Proof.
  revert s p l.
  induction fuel as [|fuel IH]; intros s p l Hd Hf Hb Hnd Hlen; [lia|].
  cbn [clear_loop].
  apply post_bind, post_getFront. apply post_bind, post_getBack.
  rewrite Hf, Hb. destruct l as [|e0 l].
  - rewrite decide_False by naive_solver. apply post_ret.
    intros a. rewrite decide_False; [done|]. by apply not_elem_of_nil.
  - change ((e0 :: l) ++ [e]) with (e0 :: (l ++ [e])) in *.
    cbn [first_or]. rewrite fmap_cons in Hnd.
    apply NoDup_cons in Hnd as [He0 Hnd].
    assert (e0.1 ≠ e.1) as Hne.
    { intros Heq. apply He0. rewrite Heq, fmap_app. set_solver. }
    rewrite decide_True by congruence.
    apply dll_cons_inv in Hd as (n & Hn & _ & _ & Hq & Hd).
    apply post_bind, (post_deref _ _ e0.1); [done|].
    apply post_bind, (post_load _ _ n); [done|].
    apply post_bind, post_setFront. proj.
    apply post_bind, (post_delete_node _ _ n); [done|]. proj.
    eapply post_mono.
    { eapply (IH _ (Some e0.1) l); proj; try done.
      - by apply dll_delete_ne.
      - simpl in Hlen. lia. }
    intros [] s' Hs' a. proj in *. rewrite Hs', fmap_cons.
    destruct (decide (a = e0.1)) as [->|Ha].
    + rewrite lookup_delete_eq. rewrite (decide_True (P := _ ∈ _ :: _)) by set_solver.
      by case_decide.
    + rewrite lookup_delete_ne by done.
      repeat case_decide; set_solver.
Qed.

Lemma clear_heap s l :
  repr s l →
  post clear s (λ _ s',
    front s' = None ∧ back s' = None ∧
    ∀ a, heap s' !! a =
         if decide (a ∈ (removelast l).*1) then None else heap s !! a).
Proof.
  intros Hr. pose proof (repr_fuel _ _ Hr) as Hlen.
  destruct Hr as (Hd & Hf & Hb & Hnd). unfold clear.
  apply post_bind, post_fuel_of. apply post_bind.
  destruct (dll_snoc_case l) as [->|(l' & e & ->)].
  - cbn [clear_loop]. apply post_bind, post_getFront.
    apply post_bind, post_getBack. rewrite Hf, Hb. simpl.
    apply post_ret. apply post_bind, post_setFront. apply post_setBack.
    proj. by split_and!.
  - rewrite last_or_snoc in Hb. rewrite removelast_last.
    eapply post_mono.
    { eapply (clear_loop_heap _ _ None l' e); try done.
      rewrite length_app in Hlen. simpl in Hlen. lia. }
    intros [] s' Hs'. apply post_bind, post_setFront. apply post_setBack.
    proj. by split_and!.
Qed.

Lemma removelast_snoc_fst (l : list entry) e :
  (removelast (l ++ [e])).*1 = l.*1.
Proof. by rewrite removelast_last. Qed.

(** X1: on every list [clear] returns and leaves the empty list: [front]
    and [back] are null, the traversal visits nothing and every hit test
    returns null.  On the empty list it changes nothing. *)
Theorem clear_empties (s : TileList) (l : list entry) :
  repr s l →
  ∃ s', clear s = Some (tt, s') ∧
    front s' = None ∧ back s' = None ∧ repr s' [] ∧
    traverse s' = Some ([], s') ∧
    (∀ x y, findTile x y s' = Some (None, s')) ∧
    (l = [] → s' = s).
Proof.
  intros Hr. destruct (clear_heap s l Hr) as ([] & s' & Heq & Hf & Hb & Hh).
  assert (repr s' []) as Hr'.
  { split_and!; [done|by rewrite Hf|by rewrite Hb|apply NoDup_nil_2]. }
  exists s'. split_and!; try done.
  - by apply (traverse_spec s' []).
  - intros x y. by apply (findTile_spec x y s' []).
  - intros ->. destruct s as [h f b], s' as [h' f' b'].
    destruct Hr as (_ & Hf0 & Hb0 & _). proj in *. simpl in *. subst.
    f_equal. apply map_eq. intros a. apply Hh.
Qed.

Lemma clear_empties_witness :
  ∃ s', clear three_tiles = Some (tt, s') ∧
    front s' = None ∧ back s' = None ∧ repr s' [] ∧
    traverse s' = Some ([], s') ∧
    (∀ x y, findTile x y s' = Some (None, s')) ∧
    ([(1%positive, red); (2%positive, blue); (3%positive, green)] = [] →
     s' = three_tiles).
Proof. apply (clear_empties _ _ repr_three_tiles). Defined.

(** X2: on a list that ends with the node [e], [clear] frees every node in
    front of [e] and nothing else: the back node [e] stays allocated with
    its contents, no longer reachable from [front] or [back], and the
    nodes that are not in the list are untouched. *)
Theorem clear_keeps_back_node (s : TileList) (l : list entry) (e : entry) :
  repr s (l ++ [e]) →
  ∃ s', clear s = Some (tt, s') ∧
    front s' = None ∧ back s' = None ∧
    (∀ a, a ∈ l.*1 → heap s' !! a = None) ∧
    is_Some (heap s' !! e.1) ∧
    (∀ a, a ∉ l.*1 → heap s' !! a = heap s !! a).
Proof.
  intros Hr. destruct (clear_heap _ _ Hr) as ([] & s' & Heq & Hf & Hb & Hh).
  rewrite removelast_snoc_fst in Hh.
  pose proof (repr_NoDup _ _ Hr) as Hnd.
  rewrite fmap_app in Hnd. apply NoDup_app in Hnd as (_ & Hnd & _).
  exists s'. split_and!; try done.
  - intros a Ha. by rewrite Hh, decide_True.
  - rewrite Hh, decide_False by set_solver.
    destruct (repr_lookup _ _ e Hr) as (n & -> & _); [set_solver|]. eauto.
  - intros a Ha. by rewrite Hh, decide_False.
Qed.

Lemma clear_keeps_back_node_witness :
  ∃ s', clear three_tiles = Some (tt, s') ∧
    front s' = None ∧ back s' = None ∧
    (∀ a, a ∈ [(1%positive, red); (2%positive, blue)].*1 →
          heap s' !! a = None) ∧
    is_Some (heap s' !! 3%positive) ∧
    (∀ a, a ∉ [(1%positive, red); (2%positive, blue)].*1 →
          heap s' !! a = heap three_tiles !! a).
Proof.
  apply (clear_keeps_back_node three_tiles
           [(1%positive, red); (2%positive, blue)] (3%positive, green)).
  exact repr_three_tiles.
Defined.

(** X3: on every list the destructor returns: after [clear] both pointers
    are null, so [delete front] and [delete back] free nothing, and the
    destructor ends in the state [clear] ends in.  The back node of a list
    that is not empty is therefore never freed. *)
Theorem destructor_is_clear (s : TileList) (l : list entry) :
  repr s l →
  ∃ s', TileList_delete s = Some (tt, s') ∧ clear s = Some (tt, s') ∧
    ∀ l' e, l = l' ++ [e] → is_Some (heap s' !! e.1).
Proof.
  intros Hr. destruct (clear_heap _ _ Hr) as ([] & s' & Heq & Hf & Hb & Hh).
  exists s'. split_and!; [|done|].
  - unfold TileList_delete, mbind, M_bind. rewrite Heq.
    unfold getFront. rewrite Hf. cbn [delete_ptr mret M_ret].
    unfold getBack. by rewrite Hb.
  - intros l' e ->. rewrite Hh, removelast_snoc_fst.
    pose proof (repr_NoDup _ _ Hr) as Hnd.
    rewrite fmap_app in Hnd. apply NoDup_app in Hnd as (_ & Hnd & _).
    rewrite decide_False by set_solver.
    destruct (repr_lookup _ _ e Hr) as (n & -> & _); [set_solver|]. eauto.
Qed.

Lemma destructor_is_clear_witness :
  ∃ s', TileList_delete two_tiles = Some (tt, s') ∧
    clear two_tiles = Some (tt, s') ∧
    ∀ l' e, [(1%positive, red); (2%positive, blue)] = l' ++ [e] →
            is_Some (heap s' !! e.1).
Proof. apply (destructor_is_clear _ _ repr_two_tiles). Defined.

(** ** [drawAll] and [debug]: from the back along [prev] *)

Lemma drawAll_loop_spec fuel s l q :
  dll (heap s) None l q → (length l < fuel)%nat →
  ∃ ns, drawAll_loop fuel (last_or None l) s = Some (ns, s) ∧
        tile_of <$> ns = reverse l.*2 ∧
        Forall2 (λ n a, heap s !! a = Some n) ns (reverse l.*1).
Proof.
  revert fuel q. induction l as [|e l IH] using rev_ind;
    intros fuel q Hd Hlen; (destruct fuel as [|fuel]; [lia|]).
  - by exists [].
  - apply dll_app in Hd as [Hd1 Hd2].
    apply dll_cons_inv in Hd2 as (n & Hn & Ht & Hp & _).
    rewrite length_app in Hlen. simpl in Hlen.
    destruct (IH fuel _ Hd1) as (ns & Heq & Hts & Hns); [lia|].
    exists (n :: ns). rewrite last_or_snoc. cbn [drawAll_loop].
    unfold mbind, M_bind, load. rewrite Hn, Hp, Heq.
    split_and!; [done| |].
    + rewrite fmap_app, reverse_app, fmap_cons. by rewrite Ht, Hts.
    + rewrite fmap_app, reverse_app. by constructor.
Qed.

Lemma debug_loop_spec fuel s l q :
  dll (heap s) None l q → (length l < fuel)%nat →
  ∃ ns, debug_loop fuel (last_or None l) s = Some (ns, s) ∧
        tile_of <$> ns = reverse l.*2 ∧
        Forall2 (λ n a, heap s !! a = Some n) ns (reverse l.*1).
Proof.
  revert fuel q. induction l as [|e l IH] using rev_ind;
    intros fuel q Hd Hlen; (destruct fuel as [|fuel]; [lia|]).
  - by exists [].
  - apply dll_app in Hd as [Hd1 Hd2].
    apply dll_cons_inv in Hd2 as (n & Hn & Ht & Hp & _).
    rewrite length_app in Hlen. simpl in Hlen.
    destruct (IH fuel _ Hd1) as (ns & Heq & Hts & Hns); [lia|].
    exists (n :: ns). rewrite last_or_snoc. cbn [debug_loop].
    unfold mbind, M_bind, load. rewrite Hn, Hp, Heq.
    split_and!; [done| |].
    + rewrite fmap_app, reverse_app, fmap_cons. by rewrite Ht, Hts.
    + rewrite fmap_app, reverse_app. by constructor.
Qed.

Lemma drawAll_spec s l :
  repr s l →
  ∃ ns, drawAll s = Some (ns, s) ∧
    tile_of <$> ns = reverse l.*2 ∧
    Forall2 (λ n a, heap s !! a = Some n) ns (reverse l.*1).
Proof.
  intros Hr. pose proof (repr_fuel _ _ Hr) as Hlen.
  destruct Hr as (Hd & _ & Hb & _).
  destruct (drawAll_loop_spec (S (size (heap s))) s l None Hd)
    as (ns & Heq & Hts & Hns); [lia|].
  exists ns. split_and!; try done.
  unfold drawAll, mbind, M_bind, fuel_of, getBack. by rewrite Hb.
Qed.

(** X4: [drawAll] draws every node of the list exactly once, from the back
    to the front: the tiles drawn are the tiles of the list in reverse
    order, the nodes drawn are those of the front-to-back traversal in
    reverse order, and the list is left as it is. *)
Theorem drawAll_back_to_front (s : TileList) (l : list entry) :
  repr s l →
  ∃ ns, drawAll s = Some (ns, s) ∧
    tile_of <$> ns = reverse l.*2 ∧
    traverse s = Some (l.*1, s) ∧
    Forall2 (λ n a, heap s !! a = Some n) ns (reverse l.*1).
Proof.
  intros Hr. destruct (drawAll_spec s l Hr) as (ns & Heq & Hts & Hns).
  exists ns. split_and!; try done. by apply traverse_spec.
Qed.

Lemma drawAll_back_to_front_witness :
  ∃ ns, drawAll three_tiles = Some (ns, three_tiles) ∧
    tile_of <$> ns =
      reverse [(1%positive, red); (2%positive, blue); (3%positive, green)].*2 ∧
    traverse three_tiles =
      Some ([(1%positive, red); (2%positive, blue); (3%positive, green)].*1,
            three_tiles) ∧
    Forall2 (λ n a, heap three_tiles !! a = Some n) ns
      (reverse [(1%positive, red); (2%positive, blue); (3%positive, green)].*1).
Proof. apply (drawAll_back_to_front _ _ repr_three_tiles). Defined.

(** X5: [debug] prints every node of the list exactly once, the back node
    first and the front node last, and leaves the list as it is. *)
Theorem debug_back_to_front (s : TileList) (l : list entry) :
  repr s l →
  ∃ ns, debug s = Some (ns, s) ∧
    tile_of <$> ns = reverse l.*2 ∧
    Forall2 (λ n a, heap s !! a = Some n) ns (reverse l.*1).
Proof.
  intros Hr. pose proof (repr_fuel _ _ Hr) as Hlen.
  destruct Hr as (Hd & _ & Hb & _).
  destruct (debug_loop_spec (S (size (heap s))) s l None Hd)
    as (ns & Heq & Hts & Hns); [lia|].
  exists ns. split_and!; try done.
  unfold debug, mbind, M_bind, fuel_of, getBack. by rewrite Hb.
Qed.

Lemma debug_back_to_front_witness :
  ∃ ns, debug two_tiles = Some (ns, two_tiles) ∧
    tile_of <$> ns = reverse [(1%positive, red); (2%positive, blue)].*2 ∧
    Forall2 (λ n a, heap two_tiles !! a = Some n) ns
      (reverse [(1%positive, red); (2%positive, blue)].*1).
Proof. apply (debug_back_to_front _ _ repr_two_tiles). Defined.

(** ** Adding a tile and removing it again *)

Lemma post_inv {A : Type} (m : M A) s a s' Q :
  post m s Q → m s = Some (a, s') → Q a s'.
Proof. intros (a' & s'' & Hm & HQ) H. congruence. Qed.

Lemma post_eq_inv {A : Type} (m : M A) s a0 s0 :
  post m s (λ a s', a = a0 ∧ s' = s0) → m s = Some (a0, s0).
Proof. by intros (a & s' & -> & -> & ->). Qed.

Lemma contains_hits x y w h c px py p :
  Tile.contains (Tile.mk x y w h c) px py = true →
  hits px py (p, Tile.mk x y w h c).
Proof. done. Qed.

(** The states [attachFront], [attachBack] and [detachTile] end in, for a
    node at an end. *)
Lemma attachFront_empty_eq h p n :
  h !! p = Some n →
  attachFront p (mkTileList h None None) =
    Some (tt, mkTileList (<[p := TileNode.set_prev None n]> h) (Some p) (Some p)).
Proof.
  intros Hn. apply post_eq_inv. unfold attachFront.
  apply post_bind, (post_assign_prev _ _ _ n); [done|]. proj.
  apply post_bind, post_getFront. proj.
  apply post_bind, post_setFront. proj.
  apply post_bind, post_getFront. proj.
  by apply post_setBack.
Qed.

Lemma attachFront_cons_eq h b p n a na :
  h !! p = Some n → h !! a = Some na → p ≠ a →
  attachFront p (mkTileList h (Some a) b) =
    Some (tt, mkTileList
      (<[a := TileNode.set_prev (Some p) na]>
         (<[p := TileNode.set_next (Some a) (TileNode.set_prev None n)]> h))
      (Some p) b).
Proof.
  intros Hn Ha Hne. apply post_eq_inv. unfold attachFront.
  apply post_bind, (post_assign_prev _ _ _ n); [done|]. proj.
  apply post_bind, post_getFront. proj.
  apply post_bind, (post_assign_next _ _ _ (TileNode.set_prev None n));
    [by proj; rewrite lookup_insert_eq|]. proj.
  rewrite insert_insert_eq.
  apply post_bind, (post_assign_prev _ _ _ na);
    [by proj; rewrite lookup_insert_ne|]. proj.
  by apply post_setFront.
Qed.

Lemma attachBack_empty_eq h p n :
  h !! p = Some n →
  attachBack p (mkTileList h None None) =
    Some (tt, mkTileList (<[p := TileNode.set_next None n]> h) (Some p) (Some p)).
Proof.
  intros Hn. apply post_eq_inv. unfold attachBack.
  apply post_bind, (post_assign_next _ _ _ n); [done|]. proj.
  apply post_bind, post_getFront. proj.
  apply post_bind, post_setFront. proj.
  apply post_bind, post_getFront. proj.
  by apply post_setBack.
Qed.

Lemma attachBack_snoc_eq h f p n a na :
  h !! p = Some n → h !! a = Some na → p ≠ a →
  attachBack p (mkTileList h (Some f) (Some a)) =
    Some (tt, mkTileList
      (<[a := TileNode.set_next (Some p) na]>
         (<[p := TileNode.set_prev (Some a) (TileNode.set_next None n)]> h))
      (Some f) (Some p)).
Proof.
  intros Hn Ha Hne. apply post_eq_inv. unfold attachBack.
  apply post_bind, (post_assign_next _ _ _ n); [done|]. proj.
  apply post_bind, post_getFront. proj.
  apply post_bind, post_getBack. proj.
  apply post_bind, (post_assign_prev _ _ _ (TileNode.set_next None n));
    [by proj; rewrite lookup_insert_eq|]. proj.
  rewrite insert_insert_eq.
  apply post_bind, (post_deref _ _ a); [done|].
  apply post_bind, (post_assign_next _ _ _ na);
    [by proj; rewrite lookup_insert_ne|]. proj.
  by apply post_setBack.
Qed.

Lemma detachTile_only_eq h p n :
  h !! p = Some n →
  detachTile p (mkTileList h (Some p) (Some p)) =
    Some (tt, mkTileList h (TileNode.next n) (TileNode.prev n)).
Proof.
  intros Hn. apply post_eq_inv. unfold detachTile.
  apply post_bind, post_getFront. proj.
  rewrite decide_False by naive_solver.
  apply post_bind, post_bind, (post_load _ _ n); [done|].
  apply post_setFront. proj.
  apply post_bind, post_getBack. proj.
  rewrite decide_False by naive_solver.
  apply post_bind, (post_load _ _ n); [done|].
  by apply post_setBack.
Qed.

Lemma detachTile_front_eq h b p n a na :
  h !! p = Some n → TileNode.next n = Some a → h !! a = Some na →
  Some p ≠ b →
  detachTile p (mkTileList h (Some p) b) =
    Some (tt, mkTileList (<[a := TileNode.set_prev (TileNode.prev n) na]> h)
                (Some a) b).
Proof.
  intros Hn Hnext Ha Hb. apply post_eq_inv. unfold detachTile.
  apply post_bind, post_getFront. proj.
  rewrite decide_False by naive_solver.
  apply post_bind, post_bind, (post_load _ _ n); [done|].
  apply post_setFront. proj.
  apply post_bind, post_getBack. proj.
  rewrite decide_True by done.
  apply post_bind, (post_load _ _ n); [done|].
  apply post_bind, (post_deref _ _ a); [done|].
  apply (post_assign_prev _ _ _ na); [done|]. proj. by rewrite Hnext.
Qed.

Lemma detachTile_back_eq h f p n a na :
  h !! p = Some n → TileNode.prev n = Some a → h !! a = Some na →
  Some p ≠ f → p ≠ a →
  detachTile p (mkTileList h f (Some p)) =
    Some (tt, mkTileList (<[a := TileNode.set_next (TileNode.next n) na]> h)
                f (Some a)).
Proof.
  intros Hn Hprev Ha Hf Hne. apply post_eq_inv. unfold detachTile.
  apply post_bind, post_getFront. proj.
  rewrite decide_True by done.
  apply post_bind, post_bind, (post_load _ _ n); [done|].
  apply post_bind, (post_deref _ _ a); [done|].
  apply (post_assign_next _ _ _ na); [done|]. proj.
  apply post_bind, post_getBack. proj.
  rewrite decide_False by naive_solver.
  apply post_bind, (post_load _ _ n); [by proj; rewrite lookup_insert_ne|].
  apply post_setBack. proj. by rewrite Hprev.
Qed.

Lemma set_prev_id n : TileNode.set_prev (TileNode.prev n) n = n.
Proof. by destruct n. Qed.

Lemma set_next_id n : TileNode.set_next (TileNode.next n) n = n.
Proof. by destruct n. Qed.

(** X6: a tile added at the front and removed again through a point it
    contains leaves the state exactly as it was, whatever the other tiles:
    [remove] returns true, the new node is freed and every link is
    restored. *)
Theorem addFront_remove_round_trip (s : TileList) (l : list entry)
    (x y width height : Z) (color : string) (px py : Z) :
  repr s l →
  Tile.contains (Tile.mk x y width height color) px py = true →
  (addFront x y width height color;; remove px py) s = Some (true, s).
Proof.
  intros Hr Hc.
  set (n0 := TileNode.mk x y width height color None None).
  set (t := Tile.mk x y width height color).
  assert (∃ p s1, addFront x y width height color s = Some (tt, s1) ∧
            repr s1 ((p, t) :: l) ∧ remove px py s1 = Some (true, s))
    as (p & s1 & Hadd & _ & Hrem);
    [|by unfold mbind, M_bind; rewrite Hadd].
  destruct s as [hp f b]. set (p := fresh (dom hp)).
  assert (hp !! p = None) as Hp by apply not_elem_of_dom, is_fresh.
  pose proof (repr_not_in _ _ _ Hr Hp) as Hpl.
  exists p.
  assert (∀ s1, addFront x y width height color (mkTileList hp f b) =
                  Some (tt, s1) → front s1 = Some p → repr s1 ((p, t) :: l))
    as Hrepr.
  { intros s1 Hadd Hf1.
    destruct (post_inv _ _ _ _ _ (addFront_spec _ _ x y width height color Hr)
                Hadd) as (p' & _ & Hr1).
    rewrite (repr_front _ _ Hr1) in Hf1. by injection Hf1 as ->. }
  assert (∀ s1, repr s1 ((p, t) :: l) →
                findTile px py s1 = Some (Some p, s1)) as Hfind.
  { intros s1 Hr1. rewrite (findTile_spec _ _ _ _ Hr1).
    pose proof (first_hit_split px py [] (p, t) l (Forall_nil_2 _) Hc) as Hfh.
    change ([] ++ (p, t) :: l) with ((p, t) :: l) in Hfh. by rewrite Hfh. }
  destruct Hr as (Hd & Hf & Hb & Hnd). proj in *.
  destruct l as [|e l]; cbn [first_or] in Hf; subst f.
  - cbn in Hb. subst b.
    eexists. split; [|split].
    + unfold addFront, mbind, M_bind, new. proj. fold p n0.
      apply attachFront_empty_eq, lookup_insert_eq.
    + by apply Hrepr; [unfold addFront, mbind, M_bind, new; proj; fold p n0;
                        apply attachFront_empty_eq, lookup_insert_eq|].
    + unfold remove, mbind, M_bind. rewrite Hfind.
      2:{ by apply Hrepr; [unfold addFront, mbind, M_bind, new; proj; fold p n0;
                        apply attachFront_empty_eq, lookup_insert_eq|]. }
      erewrite detachTile_only_eq by apply lookup_insert_eq.
      unfold delete_node. proj. rewrite lookup_insert_eq.
      by rewrite !delete_insert_eq, delete_id.
  - apply dll_cons_inv in Hd as (ne & Hne & _ & Hprev & _).
    rewrite fmap_cons in Hpl. apply not_elem_of_cons in Hpl as [Hpe Hpl].
    assert (Some p ≠ b) as Hpb.
    { destruct (last_or_elem (e :: l) None) as (a & Ha & Hin); [done|].
      rewrite Hb, Ha. intros [= <-]. rewrite fmap_cons in Hin. set_solver. }
    assert (addFront x y width height color (mkTileList hp (Some e.1) b) =
              Some (tt, mkTileList
                (<[e.1 := TileNode.set_prev (Some p) ne]>
                   (<[p := TileNode.set_next (Some e.1)
                             (TileNode.set_prev None n0)]> (<[p:=n0]> hp)))
                (Some p) b)) as Hadd.
    { unfold addFront, mbind, M_bind, new. proj. fold p n0.
      apply attachFront_cons_eq; [apply lookup_insert_eq| |done].
      by rewrite lookup_insert_ne. }
    eexists. split; [exact Hadd|]. split; [by apply Hrepr|].
    unfold remove, mbind, M_bind. rewrite Hfind by (by apply Hrepr).
    set (np := TileNode.set_next (Some e.1) (TileNode.set_prev None n0)).
    set (h1 := <[e.1 := TileNode.set_prev (Some p) ne]> (<[p := np]> (<[p:=n0]> hp))).
    assert (h1 !! p = Some np) as H1.
    { unfold h1. rewrite lookup_insert_ne by done. apply lookup_insert_eq. }
    assert (h1 !! e.1 = Some (TileNode.set_prev (Some p) ne)) as H2.
    { apply lookup_insert_eq. }
    rewrite (detachTile_front_eq h1 b p np e.1 _ H1 eq_refl H2 Hpb).
    unfold delete_node. proj.
    rewrite lookup_insert_ne, H1 by done. unfold h1.
    match goal with
    | |- context [delete p ?m] => assert (delete p m = hp) as ->; [|done]
    end.
    apply map_eq. intros a.
    destruct (decide (a = p)) as [->|Hap]; [by rewrite lookup_delete_eq|].
    rewrite lookup_delete_ne by done.
    destruct (decide (a = e.1)) as [->|Hae].
    + rewrite lookup_insert_eq, Hne. f_equal.
      destruct ne; simpl in *; by subst.
    + by rewrite !lookup_insert_ne.
Qed.

Lemma addFront_remove_round_trip_witness :
  (addFront 0 0 3 3 "grey";; remove 1 1) three_tiles = Some (true, three_tiles).
Proof.
  apply (addFront_remove_round_trip _ _ 0 0 3 3 "grey" 1 1 repr_three_tiles).
  reflexivity.
Defined.

(** X7: a tile added at the back and removed again through a point that it
    contains and no other tile contains leaves the state exactly as it
    was. *)
Theorem addBack_remove_round_trip (s : TileList) (l : list entry)
    (x y width height : Z) (color : string) (px py : Z) :
  repr s l → miss px py l →
  Tile.contains (Tile.mk x y width height color) px py = true →
  (addBack x y width height color;; remove px py) s = Some (true, s).
Proof.
  intros Hr Hm Hc.
  set (n0 := TileNode.mk x y width height color None None).
  set (t := Tile.mk x y width height color).
  assert (∃ p s1, addBack x y width height color s = Some (tt, s1) ∧
            repr s1 (l ++ [(p, t)]) ∧ remove px py s1 = Some (true, s))
    as (p & s1 & Hadd & _ & Hrem);
    [|by unfold mbind, M_bind; rewrite Hadd].
  destruct s as [hp f b]. set (p := fresh (dom hp)).
  assert (hp !! p = None) as Hp by apply not_elem_of_dom, is_fresh.
  pose proof (repr_not_in _ _ _ Hr Hp) as Hpl.
  exists p.
  assert (∀ s1, addBack x y width height color (mkTileList hp f b) =
                  Some (tt, s1) → back s1 = Some p → repr s1 (l ++ [(p, t)]))
    as Hrepr.
  { intros s1 Hadd Hb1.
    destruct (post_inv _ _ _ _ _ (addBack_spec _ _ x y width height color Hr)
                Hadd) as (p' & _ & Hr1).
    rewrite (repr_back _ _ Hr1), last_or_snoc in Hb1. by injection Hb1 as ->. }
  assert (∀ s1, repr s1 (l ++ [(p, t)]) →
                findTile px py s1 = Some (Some p, s1)) as Hfind.
  { intros s1 Hr1. rewrite (findTile_spec _ _ _ _ Hr1).
    by rewrite (first_hit_split px py l (p, t) [] Hm Hc). }
  destruct Hr as (Hd & Hf & Hb & Hnd). proj in *.
  destruct (dll_snoc_case l) as [->|(l' & e & ->)].
  - cbn in Hf, Hb. subst f b.
    assert (addBack x y width height color (mkTileList hp None None) =
              Some (tt, mkTileList (<[p := TileNode.set_next None n0]> (<[p:=n0]> hp))
                          (Some p) (Some p))) as Hadd.
    { unfold addBack, mbind, M_bind, new. proj. fold p n0.
      apply attachBack_empty_eq, lookup_insert_eq. }
    eexists. split; [exact Hadd|]. split; [by apply Hrepr|].
    unfold remove, mbind, M_bind. rewrite Hfind by (by apply Hrepr).
    erewrite detachTile_only_eq by apply lookup_insert_eq.
    unfold delete_node. proj. rewrite lookup_insert_eq.
    by rewrite !delete_insert_eq, delete_id.
  - rewrite last_or_snoc in Hb. subst b.
    apply dll_app in Hd as [_ Hd].
    apply dll_cons_inv in Hd as (ne & Hne & _ & _ & Hnext & _).
    cbn [first_or] in Hnext.
    rewrite fmap_app in Hpl. apply not_elem_of_app in Hpl as [Hpl Hpe].
    assert (p ≠ e.1) as Hpe' by set_solver.
    destruct (first_or_elem (l' ++ [e]) None) as (f0 & Hf0 & Hin); [by destruct l'|].
    rewrite Hf0 in Hf. subst f.
    assert (Some p ≠ Some f0) as Hpf.
    { intros [= <-]. rewrite fmap_app in Hin. set_solver. }
    set (np := TileNode.set_prev (Some e.1) (TileNode.set_next None n0)).
    set (h1 := <[e.1 := TileNode.set_next (Some p) ne]> (<[p := np]> (<[p:=n0]> hp))).
    assert (addBack x y width height color (mkTileList hp (Some f0) (Some e.1)) =
              Some (tt, mkTileList h1 (Some f0) (Some p))) as Hadd.
    { unfold addBack, mbind, M_bind, new. proj. fold p n0.
      apply attachBack_snoc_eq; [apply lookup_insert_eq| |done].
      by rewrite lookup_insert_ne. }
    eexists. split; [exact Hadd|]. split; [by apply Hrepr|].
    unfold remove, mbind, M_bind. rewrite Hfind by (by apply Hrepr).
    assert (h1 !! p = Some np) as H1.
    { unfold h1. rewrite lookup_insert_ne by done. apply lookup_insert_eq. }
    assert (h1 !! e.1 = Some (TileNode.set_next (Some p) ne)) as H2.
    { apply lookup_insert_eq. }
    rewrite (detachTile_back_eq h1 (Some f0) p np e.1 _ H1 eq_refl H2 Hpf Hpe').
    unfold delete_node. proj.
    rewrite lookup_insert_ne, H1 by done. unfold h1.
    match goal with
    | |- context [delete p ?m] => assert (delete p m = hp) as ->; [|done]
    end.
    apply map_eq. intros a.
    destruct (decide (a = p)) as [->|Hap]; [by rewrite lookup_delete_eq|].
    rewrite lookup_delete_ne by done.
    destruct (decide (a = e.1)) as [->|Hae].
    + rewrite lookup_insert_eq, Hne. f_equal.
      destruct ne; simpl in *; by subst.
    + by rewrite !lookup_insert_ne.
Qed.

Lemma addBack_remove_round_trip_witness :
  (addBack 30 30 3 3 "grey";; remove 31 31) three_tiles =
    Some (true, three_tiles).
Proof.
  apply (addBack_remove_round_trip _ _ 30 30 3 3 "grey" 31 31
           repr_three_tiles); [|reflexivity].
  repeat constructor; vm_compute; congruence.
Defined.

(** ** Hit tests after a change of the list *)

(** X8: a tile added at the front is what the hit test returns at every
    point it contains, whatever lies under it; a tile added at the back
    hides nothing: the hit test returns the node it returned before, and
    the new node only where it returned null and the new tile contains the
    point. *)
Theorem add_then_findTile (s : TileList) (l : list entry)
    (x y width height : Z) (color : string) (px py : Z) :
  repr s l →
  let t := Tile.mk x y width height color in
  (Tile.contains t px py = true →
   ∃ s1 p, addFront x y width height color s = Some (tt, s1) ∧
     front s1 = Some p ∧ findTile px py s1 = Some (Some p, s1)) ∧
  (∃ s1 p, addBack x y width height color s = Some (tt, s1) ∧
     back s1 = Some p ∧
     findTile px py s1 =
       Some (match first_hit px py l with
             | Some e => Some e.1
             | None => if Tile.contains t px py then Some p else None
             end, s1)).
Proof.
  intros Hr t. subst t. set (t := Tile.mk x y width height color). split.
  - intros Hc.
    destruct (addFront_spec s l x y width height color Hr)
      as ([] & s1 & Heq & p & _ & Hr1).
    fold t in Hr1.
    exists s1, p. split_and!; [done|by rewrite (repr_front _ _ Hr1)|].
    rewrite (findTile_spec _ _ _ _ Hr1).
    pose proof (first_hit_split px py [] (p, t) l (Forall_nil_2 _) Hc) as Hfh.
    change ([] ++ (p, t) :: l) with ((p, t) :: l) in Hfh. by rewrite Hfh.
  - destruct (addBack_spec s l x y width height color Hr)
      as ([] & s1 & Heq & p & _ & Hr1).
    fold t in Hr1. exists s1, p.
    split_and!; [done|by rewrite (repr_back _ _ Hr1), last_or_snoc|].
    rewrite (findTile_spec _ _ _ _ Hr1). f_equal. f_equal.
    destruct (first_hit_cases px py l)
      as [[Hm Hfh]|(l1 & e & l2 & -> & H1 & H2 & Hfh)]; rewrite Hfh.
    + rewrite first_hit_app by done. cbn [first_hit snd].
      by destruct (Tile.contains t px py).
    + rewrite <- app_assoc. simpl. by rewrite first_hit_split.
Qed.

Lemma add_then_findTile_witness :
  ∃ s1 p, addFront 0 0 3 3 "grey" three_tiles = Some (tt, s1) ∧
    front s1 = Some p ∧ findTile 1 1 s1 = Some (Some p, s1).
Proof.
  apply (add_then_findTile _ _ 0 0 3 3 "grey" 1 1 repr_three_tiles).
  reflexivity.
Defined.

(** X9: [raise] is idempotent: from every list a second [raise] at the same
    point returns false and changes nothing.  After [raise] the hit test
    returns the node it returned before, and that node is the front one. *)
Theorem raise_idempotent (s : TileList) (l : list entry) (x y : Z) :
  repr s l →
  ∃ b s', raise x y s = Some (b, s') ∧
    raise x y s' = Some (false, s') ∧
    findTile x y s' = Some (fst <$> first_hit x y l, s') ∧
    (∀ e, first_hit x y l = Some e → front s' = Some e.1).
Proof.
  intros Hr.
  destruct (first_hit_cases x y l)
    as [[Hm Hfh]|(l1 & e & l2 & -> & H1 & H2 & Hfh)]; rewrite Hfh.
  - exists false, s. rewrite (raise_miss x y s l Hr Hm).
    split_and!; try done.
    by rewrite (findTile_spec _ _ _ _ Hr), Hfh.
  - destruct l1 as [|e1 l1].
    + exists false, s. rewrite (raise_front x y s e l2 Hr H2).
      split_and!; try done.
      * by rewrite (findTile_spec _ _ _ _ Hr), Hfh.
      * intros ? [= <-]. by rewrite (repr_front _ _ Hr).
    + destruct (raise_hit x y s (e1 :: l1) e l2 Hr) as (b & s' & Heq & -> & Hr');
        try done.
      exists true, s'. split_and!; [done| | |].
      * by apply (raise_front x y s' e _ Hr').
      * rewrite (findTile_spec _ _ _ _ Hr').
        pose proof (first_hit_split x y [] e ((e1 :: l1) ++ l2)
                      (Forall_nil_2 _) H2) as Hfh'.
        change ([] ++ e :: (e1 :: l1) ++ l2) with (e :: (e1 :: l1) ++ l2) in Hfh'.
        by rewrite Hfh'.
      * intros ? [= <-]. by rewrite (repr_front _ _ Hr').
Qed.

Lemma raise_idempotent_witness :
  ∃ b s', raise 12 12 three_tiles = Some (b, s') ∧
    raise 12 12 s' = Some (false, s') ∧
    findTile 12 12 s' =
      Some (fst <$> first_hit 12 12
              [(1%positive, red); (2%positive, blue); (3%positive, green)], s') ∧
    (∀ e, first_hit 12 12
            [(1%positive, red); (2%positive, blue); (3%positive, green)] = Some e →
          front s' = Some e.1).
Proof. apply (raise_idempotent _ _ 12 12 repr_three_tiles). Defined.

(** X10: [lower] puts the first node that contains the point at the back
    and exposes what was under it: the hit test then returns the next node
    behind it that contains the point, and the lowered node itself when
    there is none. *)
Theorem lower_exposes_next (s : TileList) (l1 l2 : list entry) (e : entry)
    (x y : Z) :
  repr s (l1 ++ e :: l2) → miss x y l1 → hits x y e →
  ∃ b s', lower x y s = Some (b, s') ∧
    back s' = Some e.1 ∧
    findTile x y s' =
      Some (Some (from_option fst e.1 (first_hit x y l2)), s').
Proof.
  intros Hr H1 H2. destruct l2 as [|e2 l2].
  - exists false, s. rewrite (lower_back x y s l1 e Hr H1 H2).
    split_and!; [done|by rewrite (repr_back _ _ Hr), last_or_snoc|].
    by rewrite (findTile_spec _ _ _ _ Hr), first_hit_split.
  - destruct (lower_hit x y s l1 e (e2 :: l2) Hr) as (b & s' & Heq & -> & Hr');
      try done.
    exists true, s'. split_and!; [done| |].
    + by rewrite (repr_back _ _ Hr'), !last_or_app.
    + rewrite (findTile_spec _ _ _ _ Hr'), first_hit_app by done.
      destruct (first_hit_cases x y (e2 :: l2))
        as [[Hm Hfh]|(k1 & e' & k2 & Hk & Hk1 & Hk2 & Hfh)]; rewrite Hfh.
      * by rewrite (first_hit_split x y (e2 :: l2) e []).
      * rewrite Hk, <- app_assoc. simpl. by rewrite first_hit_split.
Qed.

Lemma lower_exposes_next_witness :
  ∃ b s', lower 12 12 three_tiles = Some (b, s') ∧
    back s' = Some 2%positive ∧
    findTile 12 12 s' = Some (Some 3%positive, s').
Proof.
  apply (lower_exposes_next three_tiles [(1%positive, red)] [(3%positive, green)]
           (2%positive, blue) 12 12 repr_three_tiles); [|done].
  repeat constructor; vm_compute; congruence.
Defined.

(** X11: [highlight] is idempotent and does not disturb the hit test: a
    second [highlight] at the same point returns what the first returned
    and leaves the state exactly as the first left it, and the hit test
    returns the node it returned before. *)
Theorem highlight_idempotent (s : TileList) (l : list entry) (x y : Z) :
  repr s l →
  ∃ b s', highlight x y s = Some (b, s') ∧
    highlight x y s' = Some (b, s') ∧
    findTile x y s' = Some (fst <$> first_hit x y l, s').
Proof.
  intros Hr.
  destruct (first_hit_cases x y l)
    as [[Hm Hfh]|(l1 & e & l2 & -> & H1 & H2 & Hfh)]; rewrite Hfh.
  - exists false, s. rewrite (highlight_miss x y s l Hr Hm).
    split_and!; try done. by rewrite (findTile_spec _ _ _ _ Hr), Hfh.
  - destruct (repr_lookup _ _ e Hr) as (n & Hn & Ht); [set_solver|].
    set (s1 := mkTileList (<[e.1 := TileNode.set_color "yellow" n]> (heap s))
                 (front s) (back s)).
    assert (highlight x y s = Some (true, s1)) as Heq.
    { apply post_eq_inv. unfold highlight.
      apply post_bind, (post_findTile _ _ _ _ _ Hr). rewrite Hfh.
      cbn [fmap option_fmap option_map].
      apply post_bind, (post_assign_color _ _ _ n); [done|].
      by apply post_ret. }
    destruct (post_inv _ _ _ _ _ (highlight_hit x y s l1 e l2 Hr H1 H2) Heq)
      as [_ Hr1].
    assert (hits x y (e.1, Tile.set_color "yellow" e.2)) as H2' by done.
    assert (findTile x y s1 = Some (Some e.1, s1)) as Hfind.
    { by rewrite (findTile_spec _ _ _ _ Hr1), first_hit_split. }
    exists true, s1. split_and!; [done| |done].
    apply post_eq_inv. unfold highlight.
    apply post_bind. eapply post_eq; [exact Hfind|].
    apply post_bind,
      (post_assign_color _ _ _ (TileNode.set_color "yellow" n));
      [by apply lookup_insert_eq|].
    apply post_ret. split; [done|]. unfold s1. proj.
    by rewrite insert_insert_eq.
Qed.

Lemma highlight_idempotent_witness :
  ∃ b s', highlight 12 12 three_tiles = Some (b, s') ∧
    highlight 12 12 s' = Some (b, s') ∧
    findTile 12 12 s' =
      Some (fst <$> first_hit 12 12
              [(1%positive, red); (2%positive, blue); (3%positive, green)], s').
Proof. apply (highlight_idempotent _ _ 12 12 repr_three_tiles). Defined.

(** X12: after [removeAll] at a point nothing is left there: the hit test
    returns null, [highlight], [raise], [lower] and [remove] return false,
    a second [removeAll] returns 0 and [merge] does nothing, each of them
    leaving the state as [removeAll] left it. *)
Theorem removeAll_then_miss (s : TileList) (l : list entry) (x y : Z) :
  repr s l →
  ∃ r s', removeAll x y s = Some (r, s') ∧
    findTile x y s' = Some (None, s') ∧
    highlight x y s' = Some (false, s') ∧
    raise x y s' = Some (false, s') ∧
    lower x y s' = Some (false, s') ∧
    remove x y s' = Some (false, s') ∧
    removeAll x y s' = Some (0, s') ∧
    merge x y s' = Some (tt, s').
Proof.
  intros Hr. destruct (removeAll_spec x y s l Hr) as (r & s' & Heq & _ & Hr').
  assert (miss x y (filter (λ e, ¬ hits x y e) l)) as Hm.
  { apply Forall_forall. by intros e [? _]%list_elem_of_filter. }
  assert (findTile x y s' = Some (None, s')) as Hfind.
  { by rewrite (findTile_spec _ _ _ _ Hr'), first_hit_miss. }
  exists r, s'. split_and!; try done.
  - exact (highlight_miss x y s' _ Hr' Hm).
  - exact (raise_miss x y s' _ Hr' Hm).
  - exact (lower_miss x y s' _ Hr' Hm).
  - exact (remove_miss x y s' _ Hr' Hm).
  - unfold removeAll, mbind, M_bind, fuel_of. by rewrite Hfind.
  - exact (merge_miss x y s' _ Hr' Hm).
Qed.

Lemma removeAll_then_miss_witness :
  ∃ r s', removeAll 12 12 three_tiles = Some (r, s') ∧
    findTile 12 12 s' = Some (None, s') ∧
    highlight 12 12 s' = Some (false, s') ∧
    raise 12 12 s' = Some (false, s') ∧
    lower 12 12 s' = Some (false, s') ∧
    remove 12 12 s' = Some (false, s') ∧
    removeAll 12 12 s' = Some (0, s') ∧
    merge 12 12 s' = Some (tt, s').
Proof. apply (removeAll_then_miss _ _ 12 12 repr_three_tiles). Defined.

(** ** [merge] of a single tile, and [merge] twice *)

Lemma wrap_sub_add a b : int_sub (int_add a b) a = wrap b.
Proof.
  unfold int_sub, int_add, wrap.
  replace ((a + b + 2 ^ 31) `mod` 2 ^ 32 - 2 ^ 31 - a + 2 ^ 31)
    with ((a + b + 2 ^ 31) `mod` 2 ^ 32 - a) by lia.
  rewrite Zminus_mod_idemp_l. do 2 f_equal. lia.
Qed.

Lemma box_start t :
  in_int (Tile.width t) → in_int (Tile.height t) →
  box (start t) (Tile.color t) = t.
Proof.
  intros Hw Hh. unfold box, start. rewrite !wrap_sub_add, !wrap_id by done.
  by destruct t.
Qed.

Lemma merge_hit_single x y s l1 e l2 :
  repr s (l1 ++ e :: l2) → miss x y l1 → hits x y e → miss x y l2 →
  in_int (Tile.width e.2) → in_int (Tile.height e.2) →
  ∃ s' p, merge x y s = Some (tt, s') ∧ repr s' ((p, e.2) :: l1 ++ l2).
Proof.
  intros Hr H1 H2 H3 Hw Hh.
  destruct (merge_hit x y s l1 e l2 Hr H1 H2) as ([] & s' & Heq & p & Hr').
  exists s', p. split; [done|].
  destruct (filter_hits_split x y l1 e l2 H1 H2) as [Hf1 Hf2].
  rewrite Hf1, Hf2 in Hr'.
  assert (miss x y (l1 ++ l2)) as Hm by (by apply Forall_app).
  destruct (filter_hits_miss x y _ Hm) as [Hf3 Hf4].
  rewrite Hf3, Hf4 in Hr'. cbn [fmap list_fmap foldl] in Hr'.
  by rewrite grow_start, box_start in Hr'.
Qed.

(** X13: when exactly one tile contains the point, and its width and height
    are values of [int], [merge] acts as a move to the front: the node is
    replaced by a new front node that holds the same tile, which the hit
    test at the point returns, and the other nodes keep their order. *)
Theorem merge_single_tile (s : TileList) (l1 l2 : list entry) (e : entry)
    (x y : Z) :
  repr s (l1 ++ e :: l2) → miss x y l1 → hits x y e → miss x y l2 →
  in_int (Tile.width e.2) → in_int (Tile.height e.2) →
  ∃ s' p, merge x y s = Some (tt, s') ∧ repr s' ((p, e.2) :: l1 ++ l2) ∧
    front s' = Some p ∧ findTile x y s' = Some (Some p, s').
Proof.
  intros Hr H1 H2 H3 Hw Hh.
  destruct (merge_hit_single x y s l1 e l2 Hr H1 H2 H3 Hw Hh)
    as (s' & p & Heq & Hr').
  exists s', p. split_and!; [done|done|by rewrite (repr_front _ _ Hr')|].
  rewrite (findTile_spec _ _ _ _ Hr').
  pose proof (first_hit_split x y [] (p, e.2) (l1 ++ l2) (Forall_nil_2 _) H2)
    as Hfh.
  change ([] ++ ?k) with k in Hfh. by rewrite Hfh.
Qed.

Lemma merge_single_tile_witness :
  ∃ s' p, merge 21 21 three_tiles = Some (tt, s') ∧
    repr s' ((p, green) :: [(1%positive, red); (2%positive, blue)] ++ []) ∧
    front s' = Some p ∧ findTile 21 21 s' = Some (Some p, s').
Proof.
  apply (merge_single_tile three_tiles [(1%positive, red); (2%positive, blue)] []
           (3%positive, green) 21 21 repr_three_tiles);
    try (repeat constructor; vm_compute; congruence).
Defined.

Lemma wrap_in_int z : in_int (wrap z).
Proof.
  unfold in_int, INT_MIN, INT_MAX, wrap.
  pose proof (Z.mod_pos_bound (z + 2 ^ 31) (2 ^ 32)). lia.
Qed.

Lemma merge_hit_box x y s l1 e l2 :
  repr s (l1 ++ e :: l2) → miss x y l1 → hits x y e →
  fits (filter (hits x y) (l1 ++ e :: l2)).*2 →
  ∃ s' p r,
    merge x y s = Some (tt, s') ∧
    repr s' ((p, r) :: filter (λ e', ¬ hits x y e') (l1 ++ e :: l2)) ∧
    in_int (Tile.width r) ∧ in_int (Tile.height r) ∧
    bounding_box r (filter (hits x y) (l1 ++ e :: l2)).*2.
Proof.
  intros Hr H1 H2 Hfits.
  destruct (merge_hit x y s l1 e l2 Hr H1 H2) as ([] & s' & Heq & p & Hr').
  eexists s', p, _. split_and!; [done|exact Hr'| | |].
  - destruct (foldl _ _ _) as [[[? ?] ?] ?]. apply wrap_in_int.
  - destruct (foldl _ _ _) as [[[? ?] ?] ?]. apply wrap_in_int.
  - destruct (filter_hits_split x y l1 e l2 H1 H2) as [Hf _].
    rewrite Hf in *. rewrite fmap_cons in *.
    assert (in_int (right e.2) ∧ in_int (bottom e.2)) as [He1 He2].
    { destruct (Hfits e.2 e.2) as (? & ? & _); [set_solver..|done]. }
    apply box_bounding_box; [done|done|].
    cbn [foldl]. rewrite grow_start.
    apply (extremes_of_foldl _ [e.2]); [|by apply extremes_of_start].
    apply Forall_forall. intros t Ht.
    destruct (Hfits t t) as (? & ? & _); [set_solver..|done].
Qed.

Lemma inside_contains t r x y :
  inside t r → Tile.contains t x y = true → Tile.contains r x y = true.
Proof.
  unfold inside, right, bottom, Tile.contains.
  intros (Ha & Hb & Hc & Hd) Hin.
  rewrite !andb_true_iff, !Z.leb_le, !Z.ltb_lt in *. lia.
Qed.

(** X14: when the edges and extents of the tiles that contain the point are
    values of [int], the tile [merge] adds contains the point and is the
    only one that does: the hit test returns the new front node, and a
    second [merge] at the point replaces it by a node holding the same
    tile, the other nodes staying as they are. *)
Theorem merge_twice (s : TileList) (l : list entry) (x y : Z) (e : entry) :
  repr s l → first_hit x y l = Some e →
  fits (filter (hits x y) l).*2 →
  ∃ s1 p r,
    merge x y s = Some (tt, s1) ∧
    repr s1 ((p, r) :: filter (λ e', ¬ hits x y e') l) ∧
    Tile.contains r x y = true ∧
    findTile x y s1 = Some (Some p, s1) ∧
    ∃ s2 p',
      merge x y s1 = Some (tt, s2) ∧
      repr s2 ((p', r) :: filter (λ e', ¬ hits x y e') l).
Proof.
  intros Hr Hfh Hfits.
  apply first_hit_Some in Hfh as (l1 & l2 & -> & H1 & H2).
  destruct (merge_hit_box x y s l1 e l2 Hr H1 H2 Hfits)
    as (s1 & p & r & Heq & Hr1 & Hw & Hh & Hbox & _).
  assert (Tile.contains r x y = true) as Hc.
  { destruct (filter_hits_split x y l1 e l2 H1 H2) as [Hf _].
    rewrite Hf, fmap_cons in Hbox. apply Forall_cons in Hbox as [He _].
    by eapply inside_contains. }
  assert (miss x y (filter (λ e', ¬ hits x y e') (l1 ++ e :: l2))) as Hm.
  { apply Forall_forall. by intros e' [? _]%list_elem_of_filter. }
  exists s1, p, r. split_and!; [done|done|done| |].
  - rewrite (findTile_spec _ _ _ _ Hr1).
    pose proof (first_hit_split x y [] (p, r)
                  (filter (λ e', ¬ hits x y e') (l1 ++ e :: l2))
                  (Forall_nil_2 _) Hc) as Hfh.
    change ([] ++ ?k) with k in Hfh. by rewrite Hfh.
  - apply (merge_hit_single x y s1 [] (p, r)); try done.
Qed.

Lemma merge_twice_witness :
  ∃ s1 p r,
    merge 12 12 three_tiles = Some (tt, s1) ∧
    repr s1 ((p, r) :: filter (λ e', ¬ hits 12 12 e')
               [(1%positive, red); (2%positive, blue); (3%positive, green)]) ∧
    Tile.contains r 12 12 = true ∧
    findTile 12 12 s1 = Some (Some p, s1) ∧
    ∃ s2 p',
      merge 12 12 s1 = Some (tt, s2) ∧
      repr s2 ((p', r) :: filter (λ e', ¬ hits 12 12 e')
                 [(1%positive, red); (2%positive, blue); (3%positive, green)]).
Proof.
  apply (merge_twice _ _ 12 12 (2%positive, blue) repr_three_tiles eq_refl).
  intros t t' Ht Ht'.
  apply list_elem_of_In in Ht, Ht'.
  vm_compute in Ht, Ht'.
  destruct Ht as [<-|[<-|[]]], Ht' as [<-|[<-|[]]]; vm_compute; intuition congruence.
Defined.

(** ** Allocated nodes and linked nodes *)

Section dom_preserving_rules.
Context {A B : Type}.




End dom_preserving_rules.









































(** ** Painting order, hit test and the two ends *)

Lemma first_hit_filter x y (l : list entry) :
  head (filter (λ t, Tile.contains t x y = true) l.*2) =
  snd <$> first_hit x y l.
Proof.
  induction l as [|e l IH]; [done|]. rewrite fmap_cons. cbn [first_hit].
  destruct (Tile.contains e.2 x y) eqn:Hc.
  - by rewrite filter_cons_True.
  - rewrite filter_cons_False by congruence. done.
Qed.

(** X16: the hit test agrees with what is painted: among the tiles that
    contain the point, the one [drawAll] draws last, on top of the others,
    is the tile of the node [findTile] returns; [findTile] returns null
    exactly when [drawAll] draws no tile that contains the point. *)
Theorem findTile_is_drawn_last (s : TileList) (l : list entry) (x y : Z) :
  repr s l →
  ∃ ns r, drawAll s = Some (ns, s) ∧ findTile x y s = Some (r, s) ∧
    match r with
    | Some a =>
      ∃ n, heap s !! a = Some n ∧
        last (filter (λ t, Tile.contains t x y = true) (tile_of <$> ns)) =
          Some (tile_of n)
    | None => filter (λ t, Tile.contains t x y = true) (tile_of <$> ns) = []
    end.
Proof.
  intros Hr. destruct (drawAll_spec s l Hr) as (ns & Heq & Hts & _).
  exists ns, (fst <$> first_hit x y l).
  split_and!; [done|by apply findTile_spec|].
  rewrite Hts, filter_reverse.
  destruct (first_hit x y l) as [e|] eqn:Hfh; simpl.
  - rewrite last_reverse, first_hit_filter, Hfh. simpl.
    apply first_hit_Some in Hfh as (l1 & l2 & -> & _).
    destruct (repr_lookup _ _ e Hr) as (n & Hn & <-); [set_solver|]. eauto.
  - pose proof (first_hit_filter x y l) as Hh. rewrite Hfh in Hh.
    simpl in Hh. apply head_None in Hh. by rewrite Hh.
Qed.

Lemma findTile_is_drawn_last_witness :
  ∃ ns r, drawAll three_tiles = Some (ns, three_tiles) ∧
    findTile 12 12 three_tiles = Some (r, three_tiles) ∧
    match r with
    | Some a =>
      ∃ n, heap three_tiles !! a = Some n ∧
        last (filter (λ t, Tile.contains t 12 12 = true) (tile_of <$> ns)) =
          Some (tile_of n)
    | None => filter (λ t, Tile.contains t 12 12 = true) (tile_of <$> ns) = []
    end.
Proof. apply (findTile_is_drawn_last _ _ 12 12 repr_three_tiles). Defined.

(** X17: a tile that [raise] moves is painted last, on top of all others,
    and a tile that [lower] moves is painted first, under all others; the
    other tiles are painted in the order they were painted in before. *)
Theorem raise_lower_painting (s : TileList) (l1 l2 : list entry) (e : entry)
    (x y : Z) :
  repr s (l1 ++ e :: l2) → miss x y l1 → hits x y e →
  (l1 ≠ [] →
   ∃ s' ns, (raise x y;; drawAll) s = Some (ns, s') ∧
     tile_of <$> ns = reverse (l1 ++ l2).*2 ++ [e.2]) ∧
  (l2 ≠ [] →
   ∃ s' ns, (lower x y;; drawAll) s = Some (ns, s') ∧
     tile_of <$> ns = e.2 :: reverse (l1 ++ l2).*2).
Proof.
  intros Hr H1 H2. split; intros Hne.
  - destruct (raise_hit x y s l1 e l2 Hr Hne H1 H2) as (b & s' & Heq & _ & Hr').
    destruct (drawAll_spec s' _ Hr') as (ns & Hd & Hts & _).
    exists s', ns. split; [by unfold mbind, M_bind; rewrite Heq|].
    by rewrite Hts, fmap_cons, reverse_cons.
  - destruct (lower_hit x y s l1 e l2 Hr Hne H1 H2) as (b & s' & Heq & _ & Hr').
    destruct (drawAll_spec s' _ Hr') as (ns & Hd & Hts & _).
    exists s', ns. split; [by unfold mbind, M_bind; rewrite Heq|].
    by rewrite Hts, (assoc_L (++)), fmap_app, reverse_app.
Qed.

Lemma raise_lower_painting_witness :
  ∃ s' ns, (raise 12 12;; drawAll) three_tiles = Some (ns, s') ∧
    tile_of <$> ns = reverse [(1%positive, red); (3%positive, green)].*2 ++ [blue].
Proof.
  refine (proj1 (raise_lower_painting three_tiles [(1%positive, red)]
                   [(3%positive, green)] (2%positive, blue) 12 12
                   repr_three_tiles _ _) _); [|done|done].
  repeat constructor; vm_compute; congruence.
Defined.

(** X18: [getFront] and [getBack] return the first and the last node of the
    front-to-back traversal; both are null exactly on the empty list, and
    they are the same node exactly when the list has at most one node. *)
Theorem getFront_getBack_ends (s : TileList) (l : list entry) :
  repr s l →
  ∃ path, traverse s = Some (path, s) ∧
    getFront s = Some (head path, s) ∧
    getBack s = Some (last path, s) ∧
    (head path = None ↔ path = []) ∧
    (last path = None ↔ path = []) ∧
    (head path = last path ↔ (length path ≤ 1)%nat).
Proof.
  intros Hr. exists l.*1. pose proof (repr_NoDup _ _ Hr) as Hnd.
  split_and!.
  - by apply traverse_spec.
  - unfold getFront. rewrite (repr_front _ _ Hr), first_or_fst.
    by destruct (head _).
  - unfold getBack. rewrite (repr_back _ _ Hr), last_or_fst.
    by destruct (last _).
  - by destruct l.*1.
  - apply last_None.
  - destruct l.*1 as [|a [|b k]] eqn:Hk.
    + split; [simpl; lia|done].
    + split; [simpl; lia|done].
    + split; [|simpl; lia]. intros Heq. exfalso.
      apply NoDup_cons in Hnd as [Ha _]. apply Ha.
      rewrite last_cons_cons in Heq. cbn [head] in Heq.
      symmetry in Heq. by apply last_Some_elem_of.
Qed.

Lemma getFront_getBack_ends_witness :
  ∃ path, traverse three_tiles = Some (path, three_tiles) ∧
    getFront three_tiles = Some (head path, three_tiles) ∧
    getBack three_tiles = Some (last path, three_tiles) ∧
    (head path = None ↔ path = []) ∧
    (last path = None ↔ path = []) ∧
    (head path = last path ↔ (length path ≤ 1)%nat).
Proof. apply (getFront_getBack_ends _ _ repr_three_tiles). Defined.

(** X19: [merge] takes the colour of the first tile it finds, so a
    [highlight] followed by a [merge] at the same point leaves a yellow
    tile at the front, in place of every tile that contains the point. *)
Theorem highlight_then_merge_yellow (s : TileList) (l : list entry)
    (x y : Z) (e : entry) :
  repr s l → first_hit x y l = Some e →
  ∃ s' p r,
    (highlight x y;; merge x y) s = Some (tt, s') ∧
    repr s' ((p, r) :: filter (λ e', ¬ hits x y e') l) ∧
    Tile.color r = "yellow".
Proof.
  intros Hr Hfh. apply first_hit_Some in Hfh as (l1 & l2 & -> & H1 & H2).
  destruct (highlight_hit x y s l1 e l2 Hr H1 H2) as (b & s1 & Heq & _ & Hr1).
  set (e' := (e.1, Tile.set_color "yellow" e.2)) in *.
  assert (hits x y e') as H2' by done.
  destruct (merge_hit x y s1 l1 e' l2 Hr1 H1 H2') as ([] & s' & Heq' & p & Hr').
  destruct (filter_hits_split x y l1 e l2 H1 H2) as [_ Hf].
  destruct (filter_hits_split x y l1 e' l2 H1 H2') as [_ Hf'].
  rewrite Hf' in Hr'. rewrite Hf.
  eexists s', p, _. split_and!; [|exact Hr'|].
  - unfold mbind, M_bind. by rewrite Heq.
  - by destruct (foldl _ _ _) as [[[? ?] ?] ?].
Qed.

Lemma highlight_then_merge_yellow_witness :
  ∃ s' p r,
    (highlight 12 12;; merge 12 12) three_tiles = Some (tt, s') ∧
    repr s' ((p, r) :: filter (λ e', ¬ hits 12 12 e')
               [(1%positive, red); (2%positive, blue); (3%positive, green)]) ∧
    Tile.color r = "yellow".
Proof.
  apply (highlight_then_merge_yellow _ _ 12 12 (2%positive, blue)
           repr_three_tiles eq_refl).
Defined.
